(** * Quota accounting of model/token.go

    A shallow embedding of the credential ("token") quota engine: the
    synchronous guard ([PreConsumeTokenQuota], [PostConsumeTokenQuota]),
    the validation path ([ValidateUserToken]) and the write-coalescing
    pipeline ([offlineUpdateTokenQuota], [batchConsumeTokenQuota]).

    Go functions that touch the store become functions in a small
    state-and-fault monad over [World]; goroutines become threads of an
    explicit interleaving machine. *)

From stdpp Require Import base tactics option list gmap strings pretty.
From Stdlib Require Import ZArith Lia.

Open Scope Z_scope.

(** ** Machine integers *)

(** Two's complement reading of [x] on [w] bits. *)
Definition wrap (w : Z) (x : Z) : Z :=
  (x + 2 ^ (w - 1)) `mod` 2 ^ w - 2 ^ (w - 1).

(** Go's [int] on the 64-bit targets the server is built for. *)
Definition int_bits : Z := 64.
Definition min_int : Z := - 2 ^ (int_bits - 1).
Definition max_int : Z := 2 ^ (int_bits - 1) - 1.
Definition is_int (x : Z) : Prop := min_int <= x <= max_int.

(** [-x] and [a - b] on [int]. *)
Definition neg_int (x : Z) : Z := wrap int_bits (- x).
Definition sub_int (a b : Z) : Z := wrap int_bits (a - b).

(** [int32(x)] and the sum computed by [atomic.AddInt32]. *)
Definition to_int32 (x : Z) : Z := wrap 32 x.
Definition add_int32 (a b : Z) : Z := wrap 32 (a + b).

(** ** Rows *)

Record Token := mkToken {
  Id : Z;
  UserId : Z;
  Key : string;
  Status : Z;
  Name : string;
  CreatedTime : Z;
  AccessedTime : Z;
  ExpiredTime : Z;          (* -1 means never expired *)
  RemainQuota : Z;
  UnlimitedQuota : bool;
  UsedQuota : Z
}.

(** The zero value [Token{}]. *)
Definition zeroToken : Token :=
  mkToken 0 0 "" 0 "" 0 0 0 0 false 0.

Definition with_Id (id : Z) (t : Token) : Token :=
  mkToken id (UserId t) (Key t) (Status t) (Name t) (CreatedTime t)
          (AccessedTime t) (ExpiredTime t) (RemainQuota t)
          (UnlimitedQuota t) (UsedQuota t).

Definition with_UsedQuota (q : Z) (t : Token) : Token :=
  mkToken (Id t) (UserId t) (Key t) (Status t) (Name t) (CreatedTime t)
          (AccessedTime t) (ExpiredTime t) (RemainQuota t)
          (UnlimitedQuota t) q.

Definition with_Status (s : Z) (t : Token) : Token :=
  mkToken (Id t) (UserId t) (Key t) s (Name t) (CreatedTime t)
          (AccessedTime t) (ExpiredTime t) (RemainQuota t)
          (UnlimitedQuota t) (UsedQuota t).

Definition with_AccessedTime (a : Z) (t : Token) : Token :=
  mkToken (Id t) (UserId t) (Key t) (Status t) (Name t) (CreatedTime t)
          a (ExpiredTime t) (RemainQuota t)
          (UnlimitedQuota t) (UsedQuota t).

(** The effect of [remain_quota = remain_quota + d, used_quota =
    used_quota - d] on one row; the store computes it, on integers. The
    columns are 64 bits wide: the sums below are what the store holds as
    long as they fit [int] (see [tokens_fit]); what a store does with a
    sum that does not fit differs from store to store and is not
    modelled, so a property whose amounts are the caller's carries the
    condition that the rows fit. *)
Definition credit_token (d : Z) (t : Token) : Token :=
  mkToken (Id t) (UserId t) (Key t) (Status t) (Name t) (CreatedTime t)
          (AccessedTime t) (ExpiredTime t) (RemainQuota t + d)
          (UnlimitedQuota t) (UsedQuota t - d).

(** Modelled from the spec: the account row behind [GetUserQuota],
    [DecreaseUserQuota] and [IncreaseUserQuota] (the [User] struct is not
    in model/token.go): one [remaining]/[used] pair per owning account. *)
Record User := mkUser {
  AccountId : Z;
  Quota : Z;
  AccountUsedQuota : Z
}.

Definition credit_user (d : Z) (u : User) : User :=
  mkUser (AccountId u) (Quota u + d) (AccountUsedQuota u - d).

(** ** Errors *)

Inductive error :=
| ErrNoKey            (* ValidateUserToken: no key supplied *)
| ErrStatus           (* ValidateUserToken: status is not enabled *)
| ErrExpired          (* ValidateUserToken: past the expiry time *)
| ErrExhausted        (* ValidateUserToken: no quota left *)
| ErrInvalidKey       (* ValidateUserToken: lookup failed *)
| ErrIdEmpty          (* GetTokenById: id is 0 *)
| ErrNegativeQuota    (* Increase/Decrease/PreConsume: quota < 0 *)
| ErrTokenQuota       (* PreConsume: credential quota too low *)
| ErrUserQuota        (* PreConsume: account quota too low *)
| ErrRecordNotFound   (* gorm.ErrRecordNotFound *)
| ErrDB.              (* any other error the store reports *)

Definition Error (e : error) : string :=
  match e with
  | ErrNoKey => "未提供令牌"
  | ErrStatus => "该令牌状态不可用"
  | ErrExpired => "该令牌已过期"
  | ErrExhausted => "该令牌额度已用尽"
  | ErrInvalidKey => "无效的令牌"
  | ErrIdEmpty => "id 为空！"
  | ErrNegativeQuota => "quota 不能为负数！"
  | ErrTokenQuota => "令牌额度不足"
  | ErrUserQuota => "用户额度不足"
  | ErrRecordNotFound => "record not found"
  | ErrDB => "store error"
  end.

(** Modelled from the spec: the status constants of package common
    (TokenStatusEnabled, ...), which model/token.go only names; the
    order is the one of the spec's enumeration {Enabled, Disabled,
    Expired, Exhausted} and Enabled is the column default 1. *)
Definition TokenStatusEnabled : Z := 1.
Definition TokenStatusDisabled : Z := 2.
Definition TokenStatusExpired : Z := 3.
Definition TokenStatusExhausted : Z := 4.

(** ** The world a call runs in *)

(** A low-balance mail handed to a goroutine of its own. *)
Record Notice := mkNotice {
  notice_user : Z;
  notice_exhausted : bool;
  notice_quota : Z
}.

Record World := mkWorld {
  tokens : list Token;            (* table tokens *)
  users : list User;              (* table users *)
  faults : nat -> bool;           (* does the n-th statement fail? *)
  clock : nat;                    (* statements issued so far *)
  logs : list string;             (* common.SysError *)
  notices : list Notice;          (* goroutines started for mails *)
  touches : list Token;           (* goroutines started for AccessedTime *)
  QuotaRemindThreshold : Z;       (* common.QuotaRemindThreshold *)
  timestamp : Z                   (* common.GetTimestamp() *)
}.

Definition set_tokens (ts : list Token) (w : World) : World :=
  mkWorld ts (users w) (faults w) (clock w) (logs w) (notices w)
          (touches w) (QuotaRemindThreshold w) (timestamp w).

Definition set_users (us : list User) (w : World) : World :=
  mkWorld (tokens w) us (faults w) (clock w) (logs w) (notices w)
          (touches w) (QuotaRemindThreshold w) (timestamp w).

Definition tick (w : World) : World :=
  mkWorld (tokens w) (users w) (faults w) (S (clock w)) (logs w) (notices w)
          (touches w) (QuotaRemindThreshold w) (timestamp w).

Definition add_log (s : string) (w : World) : World :=
  mkWorld (tokens w) (users w) (faults w) (clock w) (logs w ++ [s])
          (notices w) (touches w) (QuotaRemindThreshold w) (timestamp w).

Definition add_notice (n : Notice) (w : World) : World :=
  mkWorld (tokens w) (users w) (faults w) (clock w) (logs w)
          (notices w ++ [n]) (touches w) (QuotaRemindThreshold w)
          (timestamp w).

Definition add_touch (t : Token) (w : World) : World :=
  mkWorld (tokens w) (users w) (faults w) (clock w) (logs w)
          (notices w) (touches w ++ [t]) (QuotaRemindThreshold w)
          (timestamp w).

(** ** Outcomes and the monad *)

Inductive panic :=
| NilDereference          (* field access through a nil pointer *)
| NilInterface            (* type assertion on a nil interface *)
| WrongDynamicType        (* type assertion to a pointer to int32 on a pointer to int *)
| SendOnClosedChannel.

Inductive res (A : Type) :=
| Val (a : A)
| Panic (p : panic).
Arguments Val {A} a.
Arguments Panic {A} p.

Definition M (A : Type) : Type := World -> res A * World.

Definition ret {A} (a : A) : M A := fun w => (Val a, w).

Definition bind {A B} (m : M A) (k : A -> M B) : M B :=
  fun w =>
    match m w with
    | (Val a, w') => k a w'
    | (Panic p, w') => (Panic p, w')
    end.

Notation "'let*' x := m 'in' k" := (bind m (fun x => k))
  (at level 10, x name, m at level 100, k at level 200).
Notation "'let*' ' pat := m 'in' k" :=
  (bind m (fun x => match x with pat => k end))
  (at level 10, pat pattern, m at level 100, k at level 200).

Definition get : M World := fun w => (Val w, w).
Definition modify (f : World -> World) : M unit := fun w => (Val tt, f w).
Definition throw {A} (p : panic) : M A := fun w => (Panic p, w).

(** One statement sent to the store: it either fails as a whole (the
    answer is [true]) or is applied as a whole. *)
Definition db_stmt : M bool := fun w => (Val (faults w (clock w)), tick w).

Definition SysError (s : string) : M unit := modify (add_log s).

(** Field access through a pointer to a [Token]. *)
Definition deref (p : option Token) : M Token :=
  match p with
  | Some t => ret t
  | None => throw NilDereference
  end.

(** ** The tokens and users tables *)

Fixpoint first_token (id : Z) (rows : list Token) : option Token :=
  match rows with
  | [] => None
  | t :: rest => if Id t =? id then Some t else first_token id rest
  end.

Fixpoint first_token_by_key (k : string) (rows : list Token) : option Token :=
  match rows with
  | [] => None
  | t :: rest =>
      if String.eqb (Key t) k then Some t else first_token_by_key k rest
  end.

Definition update_tokens (id : Z) (f : Token -> Token) (rows : list Token)
  : list Token :=
  map (fun t => if Id t =? id then f t else t) rows.

Fixpoint first_user (id : Z) (rows : list User) : option User :=
  match rows with
  | [] => None
  | u :: rest => if AccountId u =? id then Some u else first_user id rest
  end.

Definition update_users (id : Z) (f : User -> User) (rows : list User)
  : list User :=
  map (fun u => if AccountId u =? id then f u else u) rows.

(** ** Store accessors of model/token.go *)

Definition GetTokenById (id : Z) : M (option Token * option error) :=
  if id =? 0 then ret (None, Some ErrIdEmpty)
  else
    let token := with_Id id zeroToken in
    let* failed := db_stmt in
    if (failed : bool) then ret (Some token, Some ErrDB)
    else
      let* w := get in
      match first_token id (tokens w) with
      | Some row => ret (Some row, None)
      | None => ret (Some token, Some ErrRecordNotFound)
      end.

(** [DB.Model(token).Select("accessed_time", "status").Updates(token)] *)
Definition SelectUpdate (token : Token) : M (option error) :=
  let* failed := db_stmt in
  if (failed : bool) then ret (Some ErrDB)
  else
    let* _ := modify (fun w =>
      set_tokens
        (update_tokens (Id token)
           (fun row => with_AccessedTime (AccessedTime token)
                         (with_Status (Status token) row))
           (tokens w)) w) in
    ret None.

Definition IncreaseTokenQuota (id quota : Z) : M (option error) :=
  if quota <? 0 then ret (Some ErrNegativeQuota)
  else
    let* failed := db_stmt in
    if (failed : bool) then ret (Some ErrDB)
    else
      let* _ := modify (fun w =>
        set_tokens (update_tokens id (credit_token quota) (tokens w)) w) in
      ret None.

Definition DecreaseTokenQuota (id quota : Z) : M (option error) :=
  if quota <? 0 then ret (Some ErrNegativeQuota)
  else
    let* failed := db_stmt in
    if (failed : bool) then ret (Some ErrDB)
    else
      let* _ := modify (fun w =>
        set_tokens (update_tokens id (credit_token (- quota)) (tokens w)) w) in
      ret None.

(** ** Collaborators that live outside model/token.go *)

(** Modelled from the spec: [CacheGetTokenByKey], absent from
    model/token.go; the spec's [GetCredential -> Credential | NotFound],
    here by key. *)
Definition CacheGetTokenByKey (key : string)
  : M (option Token * option error) :=
  let* failed := db_stmt in
  if (failed : bool) then ret (Some zeroToken, Some ErrDB)
  else
    let* w := get in
    match first_token_by_key key (tokens w) with
    | Some row => ret (Some row, None)
    | None => ret (Some zeroToken, Some ErrRecordNotFound)
    end.

(** Modelled from the spec: [GetUserQuota], absent from model/token.go;
    the spec's [GetAccountQuota(accountId) -> (remaining, used) |
    NotFound], of which the caller takes [remaining]. *)
Definition GetUserQuota (id : Z) : M (Z * option error) :=
  let* failed := db_stmt in
  if (failed : bool) then ret (0, Some ErrDB)
  else
    let* w := get in
    match first_user id (users w) with
    | Some u => ret (Quota u, None)
    | None => ret (0, Some ErrRecordNotFound)
    end.

(** Modelled from the spec: [DecreaseUserQuota], absent from
    model/token.go; the spec's atomic relative update
    [ApplyRelativeUpdate(account, {remaining: -q, used: +q}) -> ok |
    StoreError]. *)
Definition DecreaseUserQuota (id quota : Z) : M (option error) :=
  let* failed := db_stmt in
  if (failed : bool) then ret (Some ErrDB)
  else
    let* _ := modify (fun w =>
      set_users (update_users id (credit_user (- quota)) (users w)) w) in
    ret None.

(** Modelled from the spec: [IncreaseUserQuota], absent from
    model/token.go; the spec's atomic relative update
    [ApplyRelativeUpdate(account, {remaining: +q, used: -q}) -> ok |
    StoreError]. *)
Definition IncreaseUserQuota (id quota : Z) : M (option error) :=
  let* failed := db_stmt in
  if (failed : bool) then ret (Some ErrDB)
  else
    let* _ := modify (fun w =>
      set_users (update_users id (credit_user quota) (users w)) w) in
    ret None.

(** ** The guard *)

Definition PreConsumeTokenQuota (tokenId quota : Z) : M (option error) :=
  if quota <? 0 then ret (Some ErrNegativeQuota)
  else
    let* '(token, err) := GetTokenById tokenId in
    match err with
    | Some e => ret (Some e)
    | None =>
      let* token := deref token in
      if negb (UnlimitedQuota token) && (RemainQuota token <? quota)
      then ret (Some ErrTokenQuota)
      else
        let* '(userQuota, err) := GetUserQuota (UserId token) in
        match err with
        | Some e => ret (Some e)
        | None =>
          if userQuota <? quota then ret (Some ErrUserQuota)
          else
            let* w := get in
            let quotaTooLow :=
              (QuotaRemindThreshold w <=? userQuota)
              && (sub_int userQuota quota <? QuotaRemindThreshold w) in
            let noMoreQuota := sub_int userQuota quota <=? 0 in
            let* _ :=
              (if quotaTooLow || noMoreQuota
               then modify (add_notice
                              (mkNotice (UserId token) noMoreQuota userQuota))
               else ret tt) in
            let* err :=
              (if negb (UnlimitedQuota token)
               then DecreaseTokenQuota tokenId quota
               else ret None) in
            match err with
            | Some e => ret (Some e)
            | None => DecreaseUserQuota (UserId token) quota
            end
        end
    end.

Definition PostConsumeTokenQuota (tokenId quota : Z) : M (option error) :=
  let* '(token, _) := GetTokenById tokenId in
  let* token := deref token in
  let* err :=
    (if 0 <? quota
     then DecreaseUserQuota (UserId token) quota
     else IncreaseUserQuota (UserId token) (neg_int quota)) in
  match err with
  | Some e => ret (Some e)
  | None =>
    if negb (UnlimitedQuota token)
    then
      let* err :=
        (if 0 <? quota
         then DecreaseTokenQuota tokenId quota
         else IncreaseTokenQuota tokenId (neg_int quota)) in
      match err with
      | Some e => ret (Some e)
      | None => ret None
      end
    else ret None
  end.

(** The two tests of ValidateUserToken that deny an enabled credential. *)
Definition expired (t : Token) (now : Z) : bool :=
  negb (ExpiredTime t =? -1) && (ExpiredTime t <? now).

Definition exhausted (t : Token) : bool :=
  negb (UnlimitedQuota t) && (RemainQuota t <=? 0).

(** ** Validation *)

Definition persist_status (token : Token) : M unit :=
  let* err := SelectUpdate token in
  match err with
  | Some e => SysError ("failed to update token status" ++ Error e)
  | None => ret tt
  end.

Definition ValidateUserToken (key : string)
  : M (option Token * option error) :=
  if String.eqb key "" then ret (None, Some ErrNoKey)
  else
    let* '(token, err) := CacheGetTokenByKey key in
    match err with
    | None =>
      let* token := deref token in
      if negb (Status token =? TokenStatusEnabled)
      then ret (None, Some ErrStatus)
      else
        let* w := get in
        if expired token (timestamp w)
        then
          let* _ := persist_status (with_Status TokenStatusExpired token) in
          ret (None, Some ErrExpired)
        else if exhausted token
        then
          let* _ := persist_status (with_Status TokenStatusExhausted token) in
          ret (None, Some ErrExhausted)
        else
          let* _ := modify (add_touch token) in
          ret (Some token, None)
    | Some _ => ret (None, Some ErrInvalidKey)
    end.

(** ** The aggregator: cachedTokenQuotas *)

(** What an entry of the [sync.Map] holds, with its dynamic type: the
    consumer stores a pointer to an [int32], the flusher stores the
    address of an [int] variable. *)
Inductive cell :=
| PInt32 (v : Z)
| PInt (v : Z).

(** The type assertion of a map value to a pointer to [int32], followed
    by the read of the counter. *)
Definition assert_int32 (x : option cell) : res Z :=
  match x with
  | None => Panic NilInterface
  | Some (PInt32 v) => Val v
  | Some (PInt _) => Panic WrongDynamicType
  end.

(** The consumer's body for one event taken from toCachedTokenQuotaChan,
    run with cachedTokenQuotasLock held; on a panic the map is as the
    body left it. *)
Definition record_event (toCachedToken : Token) (m : gmap Z cell)
  : res unit * gmap Z cell :=
  let cachedTokenQuota := m !! Id toCachedToken in
  let m1 :=
    match cachedTokenQuota with
    | Some _ => m
    | None => <[Id toCachedToken := PInt32 0]> m
    end in
  match assert_int32 cachedTokenQuota with
  | Val v =>
      (Val tt,
       <[Id toCachedToken :=
           PInt32 (add_int32 v (to_int32 (UsedQuota toCachedToken)))]> m1)
  | Panic p => (Panic p, m1)
  end.

(** [Token{Id: key, UsedQuota: int( *value )}] *)
Definition pending_token (key v : Z) : Token :=
  with_Id key (with_UsedQuota v zeroToken).

(** The callback of [Range] over the entries, in the order [Range]
    visits them. *)
Fixpoint snapshot (entries : list (Z * cell)) : res (list Token) :=
  match entries with
  | [] => Val []
  | (key, value) :: rest =>
      match assert_int32 (Some value) with
      | Panic p => Panic p
      | Val v =>
          match snapshot rest with
          | Panic p => Panic p
          | Val ts => Val (pending_token key v :: ts)
          end
      end
  end.

Definition delete_all (ts : list Token) (m : gmap Z cell) : gmap Z cell :=
  foldl (fun acc t => delete (Id t) acc) m ts.

(** The flusher's first critical section: snapshot, then delete. *)
Definition drain (m : gmap Z cell) : res (list Token) * gmap Z cell :=
  match snapshot (map_to_list m) with
  | Val toUpdatedTokenQuotas =>
      (Val toUpdatedTokenQuotas, delete_all toUpdatedTokenQuotas m)
  | Panic p => (Panic p, m)
  end.

(** The flusher's second critical section: every failed entry is stored
    back, as the address of a fresh [int] holding its delta. *)
Definition requeue (fail : list Token) (m : gmap Z cell) : gmap Z cell :=
  foldl (fun acc t => <[Id t := PInt (UsedQuota t)]> acc) m fail.

(** The delta pending for a credential. *)
Definition pending (id : Z) (m : gmap Z cell) : Z :=
  match m !! id with
  | Some (PInt32 v) | Some (PInt v) => v
  | None => 0
  end.

(** ** batchConsumeTokenQuota as an interleaving machine *)

(** The body of one worker goroutine up to its [if err != nil]. *)
Definition persist_one (token : Token) : M (option error) :=
  if 0 <? UsedQuota token
  then DecreaseTokenQuota (Id token) (UsedQuota token)
  else if UsedQuota token <? 0
  then IncreaseTokenQuota (Id token) (neg_int (UsedQuota token))
  else ret None.

Inductive main_pc :=
| MainOuter (i : nat)                     (* for i := ...; i < len(tokens) *)
| MainInner (i : nat) (rest : list Token) (* for _, token := range tokens[i:j] *)
| MainClose                               (* close(failChan) *)
| MainWait                                (* <-completeChan *)
| MainReturned (fail : list Token).

Inductive worker_pc :=
| WorkerUpdate (token : Token)
| WorkerSend (token : Token)              (* failChan <- token *)
| WorkerDone.

Inductive collector_pc :=
| CollectorReceive                        (* for token := range failChan *)
| CollectorDone.

Inductive thread :=
| Main
| Collector
| Worker (n : nat).

Record Batch := mkBatch {
  b_world : World;
  b_tokens : list Token;
  b_main : main_pc;
  b_collector : collector_pc;
  b_workers : list worker_pc;
  b_failChan : list Token;                (* buffer of capacity 10 *)
  b_failClosed : bool;
  b_completeClosed : bool;
  b_fail : list Token;                    (* the named result *)
  b_wg : Z                                (* the WaitGroup counter *)
}.

Definition batch : nat := 10.
Definition failChan_cap : nat := 10.

Definition batch_init (tokens : list Token) (w : World) : Batch :=
  mkBatch w tokens (MainOuter 0) CollectorReceive [] [] false false [] 0.

Definition step_main (s : Batch) : option (res Batch) :=
  match b_main s with
  | MainOuter i =>
      let pc :=
        if (i <? length (b_tokens s))%nat
        then MainInner i (take batch (drop i (b_tokens s)))
        else MainClose in
      Some (Val (mkBatch (b_world s) (b_tokens s) pc (b_collector s)
                   (b_workers s) (b_failChan s) (b_failClosed s)
                   (b_completeClosed s) (b_fail s) (b_wg s)))
  | MainInner i [] =>
      Some (Val (mkBatch (b_world s) (b_tokens s) (MainOuter (i + batch))
                   (b_collector s) (b_workers s) (b_failChan s)
                   (b_failClosed s) (b_completeClosed s) (b_fail s) (b_wg s)))
  | MainInner i (token :: rest) =>
      Some (Val (mkBatch (b_world s) (b_tokens s) (MainInner i rest)
                   (b_collector s) (b_workers s ++ [WorkerUpdate token])
                   (b_failChan s) (b_failClosed s) (b_completeClosed s)
                   (b_fail s) (b_wg s + 1)))
  | MainClose =>
      Some (Val (mkBatch (b_world s) (b_tokens s) MainWait (b_collector s)
                   (b_workers s) (b_failChan s) true (b_completeClosed s)
                   (b_fail s) (b_wg s)))
  | MainWait =>
      if b_completeClosed s
      then
        let w :=
          match b_fail s with
          | [] => b_world s
          | _ :: _ =>
              add_log ("batchConsumeTokenQuota fail:"
                         ++ pretty (length (b_fail s))) (b_world s)
          end in
        Some (Val (mkBatch w (b_tokens s) (MainReturned (b_fail s))
                     (b_collector s) (b_workers s) (b_failChan s)
                     (b_failClosed s) (b_completeClosed s) (b_fail s)
                     (b_wg s)))
      else None
  | MainReturned _ => None
  end.

Definition step_collector (s : Batch) : option (res Batch) :=
  match b_collector s with
  | CollectorReceive =>
      match b_failChan s with
      | token :: rest =>
          Some (Val (mkBatch (b_world s) (b_tokens s) (b_main s)
                       CollectorReceive (b_workers s) rest (b_failClosed s)
                       (b_completeClosed s) (b_fail s ++ [token]) (b_wg s)))
      | [] =>
          if b_failClosed s
          then Some (Val (mkBatch (b_world s) (b_tokens s) (b_main s)
                            CollectorDone (b_workers s) [] (b_failClosed s)
                            true (b_fail s) (b_wg s)))
          else None
      end
  | CollectorDone => None
  end.

Definition set_worker (n : nat) (pc : worker_pc) (w : World)
    (chan : list Token) (wg : Z) (s : Batch) : Batch :=
  mkBatch w (b_tokens s) (b_main s) (b_collector s)
          (<[n := pc]> (b_workers s)) chan (b_failClosed s)
          (b_completeClosed s) (b_fail s) wg.

(** One move of worker [n]. The line it logs on a failure keeps the
    error and leaves out the printed struct. *)
Definition step_worker (n : nat) (s : Batch) : option (res Batch) :=
  match b_workers s !! n with
  | Some (WorkerUpdate token) =>
      match persist_one token (b_world s) with
      | (Val (Some e), w) =>
          Some (Val (set_worker n (WorkerSend token)
                       (add_log ("update token fail, err:" ++ Error e) w)
                       (b_failChan s) (b_wg s) s))
      | (Val None, w) =>
          Some (Val (set_worker n WorkerDone w (b_failChan s)
                       (b_wg s - 1) s))
      | (Panic p, _) => Some (Panic p)
      end
  | Some (WorkerSend token) =>
      if b_failClosed s then Some (Panic SendOnClosedChannel)
      else if (length (b_failChan s) <? failChan_cap)%nat
      then Some (Val (set_worker n WorkerDone (b_world s)
                        (b_failChan s ++ [token]) (b_wg s - 1) s))
      else None
  | Some WorkerDone | None => None
  end.

Definition step (th : thread) (s : Batch) : option (res Batch) :=
  match th with
  | Main => step_main s
  | Collector => step_collector s
  | Worker n => step_worker n s
  end.

(** Runs a schedule; [None] when it names a thread that cannot move. *)
Fixpoint run (schedule : list thread) (s : Batch) : option (res Batch) :=
  match schedule with
  | [] => Some (Val s)
  | th :: rest =>
      match step th s with
      | Some (Val s') => run rest s'
      | Some (Panic p) => Some (Panic p)
      | None => None
      end
  end.

(** ** One tick of the flusher *)

(** The body of the timer loop of offlineUpdateTokenQuota: drain, hand
    the snapshot to batchConsumeTokenQuota (run under [sched]), store the
    failures back. [None] when [sched] does not bring
    batchConsumeTokenQuota to its return. Storing back an empty list is
    the skipped [if len(fail) != 0]. *)
Definition flush_cycle (sched : list thread) (m : gmap Z cell) (w : World)
  : option (res (gmap Z cell * World)) :=
  match drain m with
  | (Panic p, _) => Some (Panic p)
  | (Val toUpdatedTokenQuotas, m1) =>
      match run sched (batch_init toUpdatedTokenQuotas w) with
      | Some (Val s) =>
          match b_main s with
          | MainReturned fail => Some (Val (requeue fail m1, b_world s))
          | _ => None
          end
      | Some (Panic p) => Some (Panic p)
      | None => None
      end
  end.

(** ** Worlds used in the examples *)

(** No statement fails from here on. *)
Definition healthy (w : World) : Prop := forall n, faults w n = false.

Definition no_faults : nat -> bool := fun _ => false.
Definition all_faults : nat -> bool := fun _ => true.
Definition fault_at (k : nat) : nat -> bool := fun n => (n =? k)%nat.

(** Credential 7 of account 3, enabled, never expiring. *)
Definition demo_token (remain : Z) (unlimited : bool) : Token :=
  mkToken 7 3 "sk-demo" TokenStatusEnabled "demo" 0 0 (-1) remain unlimited 0.

Definition demo_user : User := mkUser 3 1000 0.

Definition demo_world (t : Token) (f : nat -> bool) : World :=
  mkWorld [t] [demo_user] f 0 [] [] [] 500 1700000000.

(** ** Conditions under which PreConsumeTokenQuota turns a call down *)

(** The lookup answers with a credential that is not unlimited and has
    less than [q] left. *)
Definition credential_short (w : World) (id q : Z) : Prop :=
  exists t,
    id <> 0
    /\ faults w (clock w) = false
    /\ first_token id (tokens w) = Some t
    /\ UnlimitedQuota t = false
    /\ RemainQuota t < q.

(** Both lookups answer and the owning account has less than [q] left. *)
Definition account_short (w : World) (id q : Z) : Prop :=
  exists t u,
    id <> 0
    /\ faults w (clock w) = false
    /\ first_token id (tokens w) = Some t
    /\ faults w (S (clock w)) = false
    /\ first_user (UserId t) (users w) = Some u
    /\ Quota u < q.


(** The row SelectUpdate writes the status [s] of [t] with. *)
Definition mark (s : Z) (t : Token) (row : Token) : Token :=
  with_AccessedTime (AccessedTime t) (with_Status s row).

(** A credential whose expiry, in the past, is already recorded. *)
Definition lapsed_token : Token :=
  mkToken 7 3 "sk-demo" TokenStatusExpired "demo" 0 0 1600000000 400 false 0.

(** A batch of one pending delta, and schedules for it. *)
Definition one_delta : list Token := [pending_token 7 5].

Definition main_runs_ahead : list thread :=
  [Main; Main; Main; Main; Main; Collector; Main].

Definition worker_runs_first : list thread :=
  [Main; Main; Worker 0; Worker 0; Main; Main; Main;
   Collector; Collector; Main].

(** The states main passes through while it alone runs: the workers
    started so far have not moved, nothing was sent, nothing is closed. *)
Definition spawned (tokens : list Token) (w : World) (ws : list worker_pc)
    (pc : main_pc) : Batch :=
  mkBatch w tokens pc CollectorReceive ws [] false false []
          (Z.of_nat (length ws)).

(** The state in which main has returned the empty list and no worker
    has started. *)
Definition returned_early (tokens : list Token) (w : World) : Batch :=
  mkBatch w tokens (MainReturned []) CollectorDone (WorkerUpdate <$> tokens)
          [] true true [] (Z.of_nat (length tokens)).

(** ** The management accessors of model/token.go *)

(** The errors of the accessors that take both ids: their own guard, or
    whatever the lookup or the statement reports. *)
Inductive ids_error :=
| ErrIdOrUserIdEmpty      (* id or userId is 0 *)
| ErrOf (e : error).

(** The first row with both [id = ?] and [user_id = ?]. *)
Fixpoint first_token_of (id userId : Z) (rows : list Token) : option Token :=
  match rows with
  | [] => None
  | t :: rest =>
      if (Id t =? id) && (UserId t =? userId) then Some t
      else first_token_of id userId rest
  end.

(** [Token{Id: id, UserId: userId}] *)
Definition owned_token (id userId : Z) : Token :=
  mkToken id userId "" 0 "" 0 0 0 0 false 0.

Definition GetTokenByIds (id userId : Z)
  : M (option Token * option ids_error) :=
  if (id =? 0) || (userId =? 0) then ret (None, Some ErrIdOrUserIdEmpty)
  else
    let token := owned_token id userId in
    let* failed := db_stmt in
    if (failed : bool) then ret (Some token, Some (ErrOf ErrDB))
    else
      let* w := get in
      match first_token_of id userId (tokens w) with
      | Some row => ret (Some row, None)
      | None => ret (Some token, Some (ErrOf ErrRecordNotFound))
      end.

(** [DB.Delete(token)]: the rows with the primary key of [token] go. A
    zero primary key with no other condition is turned down before any
    statement is sent. *)
Definition Delete (token : Token) : M (option error) :=
  if Id token =? 0 then ret (Some ErrDB)
  else
    let* failed := db_stmt in
    if (failed : bool) then ret (Some ErrDB)
    else
      let* _ := modify (fun w =>
        set_tokens
          (List.filter (fun row => negb (Id row =? Id token)) (tokens w)) w) in
      ret None.

Definition DeleteTokenById (id userId : Z) : M (option ids_error) :=
  if (id =? 0) || (userId =? 0) then ret (Some ErrIdOrUserIdEmpty)
  else
    let* failed := db_stmt in
    if (failed : bool) then ret (Some (ErrOf ErrDB))
    else
      let* w := get in
      match first_token_of id userId (tokens w) with
      | None => ret (Some (ErrOf ErrRecordNotFound))
      | Some token =>
          let* err := Delete token in
          ret (ErrOf <$> err)
      end.

(** ** The consumer loop over a finite run of events *)

(** [for toCachedToken := range toCachedTokenQuotaChan], on the events the
    channel delivers, in order; a panic ends the loop. *)
Fixpoint consume (events : list Token) (m : gmap Z cell)
  : res unit * gmap Z cell :=
  match events with
  | [] => (Val tt, m)
  | ev :: rest =>
      match record_event ev m with
      | (Val _, m') => consume rest m'
      | (Panic p, m') => (Panic p, m')
      end
  end.

Definition sum_deltas (events : list Token) : Z :=
  foldr (fun ev acc => UsedQuota ev + acc) 0 events.

Definition is_int32 (x : Z) : Prop := - 2 ^ 31 <= x < 2 ^ 31.

(** ** Bookkeeping of the interleaving machine *)

(** Workers that have not reached their [wg.Done()]. *)
Fixpoint unfinished (ws : list worker_pc) : Z :=
  match ws with
  | [] => 0
  | WorkerDone :: rest => unfinished rest
  | _ :: rest => 1 + unfinished rest
  end.

(** The entries workers still hold. *)
Fixpoint inflight (ws : list worker_pc) : list Token :=
  match ws with
  | [] => []
  | WorkerUpdate t :: rest | WorkerSend t :: rest => t :: inflight rest
  | WorkerDone :: rest => inflight rest
  end.

(** The entries main has not yet started a worker for. *)
Definition unspawned (pc : main_pc) (tokens : list Token) : list Token :=
  match pc with
  | MainOuter i => drop i tokens
  | MainInner i rest => rest ++ drop (i + batch) tokens
  | MainClose | MainWait | MainReturned _ => []
  end.

(** Every entry the call still knows of, wherever it is. *)
Definition accounted (s : Batch) : list Token :=
  b_fail s ++ b_failChan s ++ inflight (b_workers s)
    ++ unspawned (b_main s) (b_tokens s).

(** ** Invariants of the interleaving machine *)

(** What main hands back is what the collector gathered, and the
    collector has stopped by then. *)
Definition settled (s : Batch) : Prop :=
  match b_main s with
  | MainReturned fail => fail = b_fail s /\ b_collector s = CollectorDone
  | _ => True
  end
  /\ (b_completeClosed s = true -> b_collector s = CollectorDone).

(** Once completeChan is closed, failChan is closed and empty; main has
    returned only if completeChan is closed. *)
Definition drained (s : Batch) : Prop :=
  (b_completeClosed s = true ->
   b_failChan s = [] /\ b_failClosed s = true)
  /\ match b_main s with
     | MainReturned _ => b_completeClosed s = true
     | _ => True
     end.

(** The states of a call on the empty batch. *)
Definition idle (w : World) (s : Batch) : Prop :=
  b_world s = w
  /\ b_tokens s = []
  /\ b_workers s = []
  /\ b_fail s = []
  /\ b_failChan s = []
  /\ match b_main s with
     | MainInner _ rest => rest = []
     | _ => True
     end.

(** The batch applied to the tokens table, entry after entry. *)
Definition apply_deltas (ts : list Token) (rows : list Token) : list Token :=
  foldl
    (fun acc t => update_tokens (Id t) (credit_token (- UsedQuota t)) acc)
    rows ts.

(** A schedule for [one_delta] on a store that answers: the worker needs
    one move. *)
Definition worker_persists_first : list thread :=
  [Main; Main; Worker 0; Main; Main; Main; Collector; Main].

(** The states of a call on a store that answers: nothing fails, so
    nothing is sent; the table holds the entries of the workers that are
    done, in the order [finished] in which they finished. *)
Definition persisting (input : list Token) (w : World)
    (finished : list Token) (s : Batch) : Prop :=
  faults (b_world s) = faults w
  /\ users (b_world s) = users w
  /\ b_tokens s = input
  /\ b_fail s = []
  /\ b_failChan s = []
  /\ Forall (fun pc => forall t, pc <> WorkerSend t) (b_workers s)
  /\ finished ++ inflight (b_workers s) ++ unspawned (b_main s) input
     ≡ₚ input
  /\ tokens (b_world s) = apply_deltas finished (tokens w).

(** ** The range of the stored counters *)

(** A row whose counters are values of the 64-bit columns. *)
Definition token_fits (t : Token) : Prop :=
  is_int (RemainQuota t) /\ is_int (UsedQuota t).

Definition user_fits (u : User) : Prop :=
  is_int (Quota u) /\ is_int (AccountUsedQuota u).

Definition tokens_fit (rows : list Token) : Prop := Forall token_fits rows.
Definition users_fit (rows : list User) : Prop := Forall user_fits rows.

Definition store_fits (w : World) : Prop :=
  tokens_fit (tokens w) /\ users_fit (users w).

(** ** Proof steps *)

(** Runs the first call of a sequence. *)
Ltac mstep := unfold bind at 1.

(** Unfolds a call down to the tests it makes. *)
Ltac mrun :=
  cbv beta iota zeta delta
    [PreConsumeTokenQuota PostConsumeTokenQuota ValidateUserToken
     persist_status GetTokenById CacheGetTokenByKey SelectUpdate GetUserQuota
     DecreaseUserQuota IncreaseUserQuota DecreaseTokenQuota IncreaseTokenQuota
     bind db_stmt get ret modify throw deref SysError].

Ltac mfinish := eexists _, _; (split; [reflexivity|]).

(** Checks that the rows of a given table fit. *)
Ltac fits :=
  unfold store_fits, tokens_fit, users_fit, token_fits, user_fits, is_int,
    min_int, max_int, int_bits;
  simpl; repeat first [split | constructor];
  first [lia | vm_compute; congruence].

(** Splits a run of a call into the tests it made. *)
Ltac mcases H :=
  repeat (match type of H with
          | context [if ?c then _ else _] => destruct c eqn:?
          | context [match ?c with Some _ => _ | None => _ end] =>
              destruct c eqn:?
          end; cbv beta iota in H;
          cbn [tokens users tick add_notice add_touch add_log set_tokens
               set_users faults clock logs touches notices timestamp] in H).

(** * Properties *)

(** ** Rows and tables *)

Lemma first_token_update (id : Z) (f : Token -> Token) (rows : list Token) :
  (forall t, Id (f t) = Id t) ->
  first_token id (update_tokens id f rows) = f <$> first_token id rows.
Proof.
  intros Hid. induction rows as [|t rows IH]; simpl; [done|].
  destruct (Id t =? id) eqn:E.
  - rewrite Hid, E. done.
  - rewrite E. exact IH.
Qed.

Lemma first_user_update (id : Z) (f : User -> User) (rows : list User) :
  (forall u, AccountId (f u) = AccountId u) ->
  first_user id (update_users id f rows) = f <$> first_user id rows.
Proof.
  intros Hid. induction rows as [|u rows IH]; simpl; [done|].
  destruct (AccountId u =? id) eqn:E.
  - rewrite Hid, E. done.
  - rewrite E. exact IH.
Qed.

Lemma first_token_update_other (id id' : Z) (f : Token -> Token)
    (rows : list Token) :
  id <> id' ->
  (forall t, Id (f t) = Id t) ->
  first_token id' (update_tokens id f rows) = first_token id' rows.
Proof.
  intros Hne Hid. induction rows as [|t rows IH]; simpl; [done|].
  destruct (Id t =? id) eqn:E.
  - apply Z.eqb_eq in E. rewrite Hid.
    destruct (Id t =? id') eqn:E'; [apply Z.eqb_eq in E'; congruence|].
    exact IH.
  - destruct (Id t =? id'); [done | exact IH].
Qed.

Lemma update_tokens_absent (id : Z) (f : Token -> Token) (rows : list Token) :
  first_token id rows = None -> update_tokens id f rows = rows.
Proof.
  induction rows as [|t rows IH]; simpl; [done|].
  destruct (Id t =? id); [discriminate|].
  intros H. by rewrite IH.
Qed.

Lemma credit_token_0 (t : Token) : credit_token 0 t = t.
Proof.
  destruct t. unfold credit_token. simpl. f_equal; lia.
Qed.

Lemma credit_user_0 (u : User) : credit_user 0 u = u.
Proof.
  destruct u. unfold credit_user. simpl. f_equal; lia.
Qed.

Lemma update_tokens_credit_0 (id : Z) (rows : list Token) :
  update_tokens id (credit_token 0) rows = rows.
Proof.
  induction rows as [|t rows IH]; simpl; [done|].
  rewrite credit_token_0, IH. by destruct (Id t =? id).
Qed.

Lemma update_users_credit_0 (id : Z) (rows : list User) :
  update_users id (credit_user 0) rows = rows.
Proof.
  induction rows as [|u rows IH]; simpl; [done|].
  rewrite credit_user_0, IH. by destruct (AccountId u =? id).
Qed.

Lemma neg_int_exact (q : Z) : min_int < q <= max_int -> neg_int q = - q.
Proof.
  unfold neg_int, wrap, min_int, max_int, int_bits. intros H.
  change (2 ^ (64 - 1)) with 9223372036854775808 in *.
  change (2 ^ 64) with 18446744073709551616.
  rewrite Z.mod_small; lia.
Qed.

Lemma neg_int_min : neg_int min_int = min_int.
Proof. reflexivity. Qed.

(** ** The store, one statement at a time *)

Lemma GetTokenById_found (w : World) (id : Z) (t : Token) :
  id <> 0 ->
  faults w (clock w) = false ->
  first_token id (tokens w) = Some t ->
  GetTokenById id w = (Val (Some t, None), tick w).
Proof.
  intros Hid Hf Ht. unfold GetTokenById.
  rewrite (proj2 (Z.eqb_neq _ _) Hid).
  unfold bind, db_stmt, get, ret. rewrite Hf. simpl. by rewrite Ht.
Qed.

Lemma GetTokenById_absent (w : World) (id : Z) :
  id <> 0 ->
  faults w (clock w) = false ->
  first_token id (tokens w) = None ->
  GetTokenById id w
  = (Val (Some (with_Id id zeroToken), Some ErrRecordNotFound), tick w).
Proof.
  intros Hid Hf Ht. unfold GetTokenById.
  rewrite (proj2 (Z.eqb_neq _ _) Hid).
  unfold bind, db_stmt, get, ret. rewrite Hf. simpl. by rewrite Ht.
Qed.


Lemma GetUserQuota_found (w : World) (id : Z) (u : User) :
  faults w (clock w) = false ->
  first_user id (users w) = Some u ->
  GetUserQuota id w = (Val (Quota u, None), tick w).
Proof.
  intros Hf Hu. unfold GetUserQuota, bind, db_stmt, get, ret.
  rewrite Hf. simpl. by rewrite Hu.
Qed.

Lemma DecreaseTokenQuota_ok (w : World) (id q : Z) :
  0 <= q ->
  faults w (clock w) = false ->
  DecreaseTokenQuota id q w
  = (Val None,
     set_tokens (update_tokens id (credit_token (- q)) (tokens w)) (tick w)).
Proof.
  intros Hq Hf. unfold DecreaseTokenQuota.
  rewrite (proj2 (Z.ltb_ge _ _) Hq).
  unfold bind, db_stmt, modify, ret. by rewrite Hf.
Qed.

Lemma IncreaseTokenQuota_ok (w : World) (id q : Z) :
  0 <= q ->
  faults w (clock w) = false ->
  IncreaseTokenQuota id q w
  = (Val None,
     set_tokens (update_tokens id (credit_token q) (tokens w)) (tick w)).
Proof.
  intros Hq Hf. unfold IncreaseTokenQuota.
  rewrite (proj2 (Z.ltb_ge _ _) Hq).
  unfold bind, db_stmt, modify, ret. by rewrite Hf.
Qed.

Lemma DecreaseTokenQuota_fault (w : World) (id q : Z) :
  0 <= q ->
  faults w (clock w) = true ->
  DecreaseTokenQuota id q w = (Val (Some ErrDB), tick w).
Proof.
  intros Hq Hf. unfold DecreaseTokenQuota.
  rewrite (proj2 (Z.ltb_ge _ _) Hq).
  unfold bind, db_stmt, modify, ret. by rewrite Hf.
Qed.

Lemma IncreaseTokenQuota_fault (w : World) (id q : Z) :
  0 <= q ->
  faults w (clock w) = true ->
  IncreaseTokenQuota id q w = (Val (Some ErrDB), tick w).
Proof.
  intros Hq Hf. unfold IncreaseTokenQuota.
  rewrite (proj2 (Z.ltb_ge _ _) Hq).
  unfold bind, db_stmt, modify, ret. by rewrite Hf.
Qed.

Lemma DecreaseUserQuota_ok (w : World) (id q : Z) :
  faults w (clock w) = false ->
  DecreaseUserQuota id q w
  = (Val None,
     set_users (update_users id (credit_user (- q)) (users w)) (tick w)).
Proof.
  intros Hf. unfold DecreaseUserQuota, bind, db_stmt, modify, ret.
  by rewrite Hf.
Qed.

Lemma IncreaseUserQuota_ok (w : World) (id q : Z) :
  faults w (clock w) = false ->
  IncreaseUserQuota id q w
  = (Val None,
     set_users (update_users id (credit_user q) (users w)) (tick w)).
Proof.
  intros Hf. unfold IncreaseUserQuota, bind, db_stmt, modify, ret.
  by rewrite Hf.
Qed.

Lemma DecreaseUserQuota_fault (w : World) (id q : Z) :
  faults w (clock w) = true ->
  DecreaseUserQuota id q w = (Val (Some ErrDB), tick w).
Proof.
  intros Hf. unfold DecreaseUserQuota, bind, db_stmt, modify, ret.
  by rewrite Hf.
Qed.

Lemma IncreaseUserQuota_fault (w : World) (id q : Z) :
  faults w (clock w) = true ->
  IncreaseUserQuota id q w = (Val (Some ErrDB), tick w).
Proof.
  intros Hf. unfold IncreaseUserQuota, bind, db_stmt, modify, ret.
  by rewrite Hf.
Qed.

(** ** PreConsumeTokenQuota *)


(** An accepted call on a store that answers: what the two tables are
    afterwards. *)
Lemma PreConsume_accepts (w : World) (id q : Z) (t : Token) (u : User) :
  healthy w ->
  id <> 0 ->
  first_token id (tokens w) = Some t ->
  first_user (UserId t) (users w) = Some u ->
  0 <= q ->
  UnlimitedQuota t = true \/ q <= RemainQuota t ->
  q <= Quota u ->
  exists w',
    PreConsumeTokenQuota id q w = (Val None, w')
    /\ healthy w'
    /\ users w' = update_users (UserId t) (credit_user (- q)) (users w)
    /\ tokens w'
       = (if UnlimitedQuota t then tokens w
          else update_tokens id (credit_token (- q)) (tokens w)).
Proof.
  intros Hh Hid Ht Hu Hq Hr Ha.
  unfold PreConsumeTokenQuota.
  rewrite (proj2 (Z.ltb_ge _ _) Hq).
  mstep. rewrite (GetTokenById_found w id t Hid (Hh _) Ht).
  mstep. simpl deref. unfold ret at 1.
  assert (negb (UnlimitedQuota t) && (RemainQuota t <? q) = false) as ->.
  { destruct Hr as [-> | Hr]; [done|].
    by rewrite (proj2 (Z.ltb_ge _ _) Hr), andb_false_r. }
  mstep. rewrite (GetUserQuota_found (tick w) _ u (Hh _) Hu).
  rewrite (proj2 (Z.ltb_ge _ _) Ha).
  mstep. unfold get at 1. mstep.
  match goal with |- context [if ?c then modify _ else ret _] => destruct c end;
    (unfold modify at 1 || unfold ret at 1);
    mstep;
    (destruct (UnlimitedQuota t); cbn [negb]; cbv beta iota;
     [unfold ret at 1
     |rewrite DecreaseTokenQuota_ok by first [exact Hq | exact (Hh _)]]);
    cbv beta iota;
    (rewrite DecreaseUserQuota_ok by exact (Hh _));
    eexists; (split; [reflexivity|]); (split; [exact Hh|]); split; reflexivity.
Qed.




Lemma PreConsume_negative (w : World) (id q : Z) :
  q < 0 -> PreConsumeTokenQuota id q w = (Val (Some ErrNegativeQuota), w).
Proof.
  intros Hq. unfold PreConsumeTokenQuota.
  by rewrite (proj2 (Z.ltb_lt _ _) Hq).
Qed.

Lemma PreConsume_credential_short (w : World) (id q : Z) :
  0 <= q -> credential_short w id q ->
  PreConsumeTokenQuota id q w = (Val (Some ErrTokenQuota), tick w).
Proof.
  intros Hq (t & Hid & Hf & Ht & Hu & Hr). mrun.
  rewrite (proj2 (Z.ltb_ge _ _) Hq), (proj2 (Z.eqb_neq _ _) Hid), Hf.
  cbn [tokens tick]. rewrite Ht. cbv beta iota.
  by rewrite Hu, (proj2 (Z.ltb_lt _ _) Hr).
Qed.

Lemma PreConsume_account_short (w : World) (id q : Z) :
  0 <= q -> ~ credential_short w id q -> account_short w id q ->
  PreConsumeTokenQuota id q w = (Val (Some ErrUserQuota), tick (tick w)).
Proof.
  intros Hq Hn (t & u & Hid & Hf & Ht & Hf' & Hu & Ha). mrun.
  rewrite (proj2 (Z.ltb_ge _ _) Hq), (proj2 (Z.eqb_neq _ _) Hid), Hf.
  cbn [tokens tick]. rewrite Ht. cbv beta iota.
  destruct (negb (UnlimitedQuota t) && (RemainQuota t <? q)) eqn:E.
  - exfalso. apply Hn. exists t.
    apply andb_true_iff in E as [E1 E2].
    apply negb_true_iff in E1. apply Z.ltb_lt in E2. done.
  - cbn [faults clock tick]. rewrite Hf'. cbn [users tick]. rewrite Hu.
    cbv beta iota. by rewrite (proj2 (Z.ltb_lt _ _) Ha).
Qed.

(** C2: PreConsume fails when the cost is negative, when the credential
    is not unlimited and has less than the cost left, or when the account
    has less than the cost left; the error is the one of the first check
    that fails (amount, credential, account) and both tables are as they
    were. *)
Theorem PreConsume_rejects (w : World) (id q : Z) :
  q < 0 \/ credential_short w id q \/ account_short w id q ->
  exists e w',
    PreConsumeTokenQuota id q w = (Val (Some e), w')
    /\ tokens w' = tokens w
    /\ users w' = users w
    /\ (q < 0 -> e = ErrNegativeQuota)
    /\ (0 <= q -> credential_short w id q -> e = ErrTokenQuota)
    /\ (0 <= q -> ~ credential_short w id q -> e = ErrUserQuota).
Proof.
  intros H.
  destruct (Z.lt_ge_cases q 0) as [Hq | Hq].
  { exists ErrNegativeQuota, w. rewrite PreConsume_negative by done.
    repeat split; intros; lia. }
  assert (credential_short w id q
          \/ (~ credential_short w id q /\ account_short w id q))
    as [Hc | [Hn Ha]].
  { destruct H as [H | [H | H]]; [lia | by left |].
    destruct H as (t & u & Hid & Hf & Ht & Hf' & Hu & Ha).
    destruct (UnlimitedQuota t) eqn:Eu.
    - right. split; [|by exists t, u].
      intros (t' & _ & _ & Ht' & Hu' & _). congruence.
    - destruct (Z.lt_ge_cases (RemainQuota t) q) as [Hr | Hr].
      + left. by exists t.
      + right. split; [|by exists t, u].
        intros (t' & _ & _ & Ht' & _ & Hr'). simplify_eq. lia. }
  - exists ErrTokenQuota, (tick w).
    rewrite PreConsume_credential_short by done.
    repeat split; intros; first [done | lia].
  - exists ErrUserQuota, (tick (tick w)).
    rewrite PreConsume_account_short by done.
    repeat split; intros; first [done | lia].
Qed.

Lemma PreConsume_rejects_witness :
  exists e w',
    PreConsumeTokenQuota 7 500 (demo_world (demo_token 400 false) no_faults)
    = (Val (Some e), w')
    /\ tokens w' = [demo_token 400 false]
    /\ users w' = [demo_user]
    /\ (500 < 0 -> e = ErrNegativeQuota)
    /\ (0 <= 500 ->
        credential_short (demo_world (demo_token 400 false) no_faults) 7 500 ->
        e = ErrTokenQuota)
    /\ (0 <= 500 ->
        ~ credential_short (demo_world (demo_token 400 false) no_faults) 7 500 ->
        e = ErrUserQuota).
Proof.
  apply (PreConsume_rejects (demo_world (demo_token 400 false) no_faults)
           7 500).
  right. left. exists (demo_token 400 false).
  split; [lia|]. split; [reflexivity|]. split; [reflexivity|].
  split; [reflexivity|]. simpl. lia.
Defined.

(** Whatever the store does, a call that comes back with one of the three
    rejections has written nothing. *)
Lemma PreConsume_rejection_writes_nothing (w w' : World) (id q : Z)
    (e : error) :
  PreConsumeTokenQuota id q w = (Val (Some e), w') ->
  e = ErrNegativeQuota \/ e = ErrTokenQuota \/ e = ErrUserQuota ->
  tokens w' = tokens w /\ users w' = users w.
Proof.
  mrun. intros Hrun He.
  repeat (match type of Hrun with
          | context [if ?c then _ else _] => destruct c eqn:?
          | context [match ?c with Some _ => _ | None => _ end] =>
              destruct c eqn:?
          end; cbv beta iota in Hrun; cbn [tokens users tick add_notice] in Hrun);
    simplify_eq; try done;
    destruct He as [He | [He | He]]; discriminate.
Qed.

(** C3: a credential with [UnlimitedQuota = true] never fails the
    credential-quota check, whatever its remaining and whatever the cost,
    and its row is never written; a successful call has debited the
    account alone. *)
Theorem PreConsume_unlimited_skips (w : World) (id q : Z) (t : Token) :
  first_token id (tokens w) = Some t ->
  UnlimitedQuota t = true ->
  exists r w',
    PreConsumeTokenQuota id q w = (Val r, w')
    /\ r <> Some ErrTokenQuota
    /\ tokens w' = tokens w
    /\ (r = None ->
        users w' = update_users (UserId t) (credit_user (- q)) (users w)).
Proof.
  intros Ht Hu. mrun.
  destruct (q <? 0); [by mfinish|].
  destruct (id =? 0); [by mfinish|].
  destruct (faults w (clock w)); [by mfinish|].
  cbn [tokens tick]. rewrite Ht. cbv beta iota. rewrite Hu.
  cbn [negb andb]. cbv beta iota.
  destruct (faults (tick w) (clock (tick w))); [by mfinish|].
  cbn [users tick]. cbv beta iota.
  destruct (first_user (UserId t) (users w)) as [u|]; [|by mfinish].
  destruct (Quota u <? q); [by mfinish|].
  match goal with
  | |- context [if ?c then (fun w => (Val tt, add_notice _ w)) else _] =>
      destruct c
  end; cbv beta iota;
    match goal with
    | |- context [if faults ?a ?b then _ else _] => destruct (faults a b)
    end; by mfinish.
Qed.

Lemma PreConsume_unlimited_skips_witness :
  exists r w',
    PreConsumeTokenQuota 7 900 (demo_world (demo_token 0 true) no_faults)
    = (Val r, w')
    /\ r <> Some ErrTokenQuota
    /\ tokens w' = [demo_token 0 true]
    /\ (r = None ->
        users w' = update_users 3 (credit_user (- 900)) [demo_user]).
Proof.
  apply (PreConsume_unlimited_skips
           (demo_world (demo_token 0 true) no_faults) 7 900
           (demo_token 0 true)); reflexivity.
Defined.

(** ** PostConsumeTokenQuota *)

(** What a call does once the lookup has answered with the row [t]: the
    account statement comes first, and the credential statement is only
    issued after it succeeded and when the credential is not unlimited. *)
Lemma PostConsume_runs (w : World) (id q : Z) (t : Token) :
  id <> 0 ->
  faults w (clock w) = false ->
  first_token id (tokens w) = Some t ->
  min_int < q <= max_int ->
  exists r w',
    PostConsumeTokenQuota id q w = (Val r, w')
    /\ faults w' = faults w
    /\ (if faults w (S (clock w))
        then r = Some ErrDB /\ users w' = users w /\ tokens w' = tokens w
        else
          users w' = update_users (UserId t) (credit_user (- q)) (users w)
          /\ (if UnlimitedQuota t
              then r = None /\ tokens w' = tokens w
              else if faults w (S (S (clock w)))
              then r = Some ErrDB /\ tokens w' = tokens w
              else r = None
                   /\ tokens w'
                      = update_tokens id (credit_token (- q)) (tokens w))).
Proof.
  intros Hid Hf Ht Hq. mrun.
  rewrite (proj2 (Z.eqb_neq _ _) Hid), Hf.
  cbn [tokens tick]. rewrite Ht. cbv beta iota.
  rewrite (neg_int_exact q Hq).
  cbn [faults clock tick].
  destruct (0 <? q) eqn:E.
  - apply Z.ltb_lt in E.
    rewrite (proj2 (Z.ltb_ge q 0)) by lia.
    cbv beta iota. cbn [faults clock tick].
    destruct (faults w (S (clock w))); [by mfinish|]. cbv beta iota.
    destruct (UnlimitedQuota t); cbn [negb]; cbv beta iota; [by mfinish|].
    try rewrite (proj2 (Z.ltb_ge q 0)) by lia.
    try rewrite (proj2 (Z.ltb_ge (- q) 0)) by lia.
    cbv beta iota. cbn [faults clock tick set_users].
    destruct (faults w (S (S (clock w)))); by mfinish.
  - apply Z.ltb_ge in E.
    rewrite (proj2 (Z.ltb_ge (- q) 0)) by lia.
    cbv beta iota. cbn [faults clock tick].
    destruct (faults w (S (clock w))); [by mfinish|]. cbv beta iota.
    destruct (UnlimitedQuota t); cbn [negb]; cbv beta iota; [by mfinish|].
    try rewrite (proj2 (Z.ltb_ge q 0)) by lia.
    try rewrite (proj2 (Z.ltb_ge (- q) 0)) by lia.
    cbv beta iota. cbn [faults clock tick set_users].
    destruct (faults w (S (S (clock w)))); by mfinish.
Qed.

Lemma PostConsume_settles (w : World) (id q : Z) (t : Token) :
  healthy w ->
  id <> 0 ->
  first_token id (tokens w) = Some t ->
  min_int < q <= max_int ->
  exists w',
    PostConsumeTokenQuota id q w = (Val None, w')
    /\ healthy w'
    /\ users w' = update_users (UserId t) (credit_user (- q)) (users w)
    /\ tokens w'
       = (if UnlimitedQuota t then tokens w
          else update_tokens id (credit_token (- q)) (tokens w)).
Proof.
  intros Hh Hid Ht Hq.
  destruct (PostConsume_runs w id q t Hid (Hh _) Ht Hq)
    as (r & w' & Hrun & Hfs & H).
  rewrite !Hh in H. destruct H as [Hus H].
  exists w'. destruct (UnlimitedQuota t); destruct H as [-> Hts];
    (split; [exact Hrun|]); (split; [|done]);
    intros n; unfold healthy in Hh; by rewrite Hfs.
Qed.





(** C5 (as amended): for an existing credential and every actualCost
    other than the least [int] that leaves the adjusted counters within
    the 64-bit range of their columns, PostConsume applies the signed
    adjustment to the account first and then, unless the credential is
    unlimited, to the credential: a failed account statement leaves the
    credential untouched, a failed credential statement leaves the
    account adjusted. A positive cost debits remaining and raises used by
    the cost, a negative one credits back its opposite, and zero changes
    nothing; the counters are within range afterwards. *)
Theorem PostConsume_signed_adjustment (w : World) (id q : Z) (t : Token) :
  id <> 0 ->
  faults w (clock w) = false ->
  first_token id (tokens w) = Some t ->
  min_int < q <= max_int ->
  store_fits w ->
  users_fit (update_users (UserId t) (credit_user (- q)) (users w)) ->
  (UnlimitedQuota t = false ->
   tokens_fit (update_tokens id (credit_token (- q)) (tokens w))) ->
  exists r w',
    PostConsumeTokenQuota id q w = (Val r, w')
    /\ store_fits w'
    /\ (if faults w (S (clock w))
        then r = Some ErrDB /\ users w' = users w /\ tokens w' = tokens w
        else
          users w' = update_users (UserId t) (credit_user (- q)) (users w)
          /\ (if UnlimitedQuota t
              then r = None /\ tokens w' = tokens w
              else if faults w (S (S (clock w)))
              then r = Some ErrDB /\ tokens w' = tokens w
              else r = None
                   /\ tokens w'
                      = update_tokens id (credit_token (- q)) (tokens w)))
    /\ (r = None -> UnlimitedQuota t = false ->
        exists t',
          first_token id (tokens w') = Some t'
          /\ RemainQuota t' = RemainQuota t - q
          /\ UsedQuota t' = UsedQuota t + q)
    /\ (forall u,
          r = None -> first_user (UserId t) (users w) = Some u ->
          exists u',
            first_user (UserId t) (users w') = Some u'
            /\ Quota u' = Quota u - q
            /\ AccountUsedQuota u' = AccountUsedQuota u + q)
    /\ (q = 0 -> tokens w' = tokens w /\ users w' = users w).
Proof.
  intros Hid Hf Ht Hq [Hfit_t Hfit_u] Hafter_u Hafter_t.
  destruct (PostConsume_runs w id q t Hid Hf Ht Hq)
    as (r & w' & Hrun & _ & H).
  exists r, w'. split; [exact Hrun|].
  split.
  { unfold store_fits. destruct (faults w (S (clock w))).
    - destruct H as (_ & -> & ->). done.
    - destruct H as [-> H]. split; [|done].
      destruct (UnlimitedQuota t); [by destruct H as [_ ->]|].
      destruct (faults w (S (S (clock w)))); destruct H as [_ ->];
        [done | by apply Hafter_t]. }
  split; [exact H|].
  destruct (faults w (S (clock w))).
  { destruct H as (-> & Hus & Hts).
    split; [done|]. split; [done|]. done. }
  destruct H as [Hus H]. split; [|split].
  - intros Hr Hunl. rewrite Hunl in H.
    destruct (faults w (S (S (clock w)))); destruct H as [Hr' Hts];
      [congruence|].
    exists (credit_token (- q) t).
    rewrite Hts, first_token_update, Ht by done.
    split; [done|]. simpl. lia.
  - intros u _ Hu. exists (credit_user (- q) u).
    rewrite Hus, first_user_update, Hu by done.
    split; [done|]. simpl. lia.
  - intros ->. change (- 0) with 0 in *.
    rewrite update_users_credit_0 in Hus.
    rewrite update_tokens_credit_0 in H.
    split; [|done].
    destruct (UnlimitedQuota t); [tauto|].
    destruct (faults w (S (S (clock w)))); tauto.
Qed.

Lemma PostConsume_signed_adjustment_witness :
  exists r w',
    PostConsumeTokenQuota 7 (-20) (demo_world (demo_token 400 false) no_faults)
    = (Val r, w')
    /\ store_fits w'
    /\ (users w' = update_users 3 (credit_user (- -20)) [demo_user]
        /\ r = None
        /\ tokens w'
           = update_tokens 7 (credit_token (- -20)) [demo_token 400 false])
    /\ (r = None -> false = false ->
        exists t',
          first_token 7 (tokens w') = Some t'
          /\ RemainQuota t' = 400 - -20
          /\ UsedQuota t' = 0 + -20)
    /\ (forall u,
          r = None -> first_user 3 [demo_user] = Some u ->
          exists u',
            first_user 3 (users w') = Some u'
            /\ Quota u' = Quota u - -20
            /\ AccountUsedQuota u' = AccountUsedQuota u + -20)
    /\ (-20 = 0 -> tokens w' = [demo_token 400 false] /\ users w' = [demo_user]).
Proof.
  apply (PostConsume_signed_adjustment
           (demo_world (demo_token 400 false) no_faults) 7 (-20)
           (demo_token 400 false)).
  - lia.
  - reflexivity.
  - reflexivity.
  - unfold min_int, max_int, int_bits. simpl. lia.
  - fits.
  - fits.
  - intros _. fits.
Defined.

(** C5 as stated fails at the least [int]: its negation overflows back to
    itself, IncreaseTokenQuota turns the negative amount down, and the
    credential is not credited. *)
Lemma PostConsume_min_int_not_credited :
  let t := demo_token 400 false in
  let w := demo_world t no_faults in
  is_int min_int
  /\ min_int < 0
  /\ neg_int min_int = min_int
  /\ (exists w',
        PostConsumeTokenQuota 7 min_int w = (Val (Some ErrNegativeQuota), w')
        /\ first_token 7 (tokens w') = Some t)
  /\ ~ (exists r w' t',
          PostConsumeTokenQuota 7 min_int w = (Val r, w')
          /\ first_token 7 (tokens w') = Some t'
          /\ RemainQuota t' = RemainQuota t + - min_int).
Proof.
  simpl. split; [unfold is_int, min_int, max_int, int_bits; simpl; lia|].
  split; [reflexivity|]. split; [reflexivity|]. split.
  - eexists. split; vm_compute; reflexivity.
  - intros (r & w' & t' & Hrun & Ht' & Hr).
    vm_compute in Hrun. injection Hrun as <- <-.
    vm_compute in Ht'. injection Ht' as <-.
    vm_compute in Hr. discriminate.
Qed.




(** ** ValidateUserToken *)

Lemma CacheGetTokenByKey_found (w : World) (key : string) (t : Token) :
  faults w (clock w) = false ->
  first_token_by_key key (tokens w) = Some t ->
  CacheGetTokenByKey key w = (Val (Some t, None), tick w).
Proof.
  intros Hf Ht. unfold CacheGetTokenByKey, bind, db_stmt, get, ret.
  rewrite Hf. simpl. by rewrite Ht.
Qed.

(** A credential that is found but whose status is not Enabled is turned
    down on its status alone: no statement follows the lookup. *)
Lemma Validate_not_enabled (w : World) (key : string) (t : Token) :
  key <> "" ->
  faults w (clock w) = false ->
  first_token_by_key key (tokens w) = Some t ->
  Status t <> TokenStatusEnabled ->
  ValidateUserToken key w = (Val (None, Some ErrStatus), tick w).
Proof.
  intros Hk Hf Ht Hs. unfold ValidateUserToken.
  rewrite (proj2 (String.eqb_neq _ _) Hk).
  mstep. rewrite (CacheGetTokenByKey_found w key t Hf Ht).
  mstep. cbn [deref]. unfold ret at 1.
  by rewrite (proj2 (Z.eqb_neq _ _) Hs).
Qed.

(** C9 (as amended): for every key whose credential is found with status
    Enabled and is expired or exhausted, validation denies the request,
    with the expiry error when the credential is expired and the
    exhaustion error otherwise, after issuing one statement that records
    the new status; when that statement fails the failure is logged, the
    table is left as it was, and the denial is returned all the same. *)
Theorem Validate_denies_and_marks (w : World) (key : string) (t : Token) :
  key <> "" ->
  faults w (clock w) = false ->
  first_token_by_key key (tokens w) = Some t ->
  Status t = TokenStatusEnabled ->
  expired t (timestamp w) = true \/ exhausted t = true ->
  exists w',
    ValidateUserToken key w
    = (Val (None,
            Some (if expired t (timestamp w) then ErrExpired
                  else ErrExhausted)), w')
    /\ clock w' = S (S (clock w))
    /\ (if faults w (S (clock w))
        then tokens w' = tokens w
             /\ logs w'
                = logs w ++ ["failed to update token status" +:+ Error ErrDB]
        else tokens w'
             = update_tokens (Id t)
                 (mark (if expired t (timestamp w) then TokenStatusExpired
                        else TokenStatusExhausted) t)
                 (tokens w)
             /\ logs w' = logs w).
Proof.
  intros Hk Hf Ht Hs Hdeny. unfold ValidateUserToken.
  rewrite (proj2 (String.eqb_neq _ _) Hk).
  mstep. rewrite (CacheGetTokenByKey_found w key t Hf Ht).
  mstep. cbn [deref]. unfold ret at 1.
  rewrite Hs. change (negb (TokenStatusEnabled =? TokenStatusEnabled))
    with false. cbv iota.
  mstep. unfold get at 1. cbn [timestamp tick].
  assert (forall s,
    exists w',
      persist_status (with_Status s t) (tick w) = (Val tt, w')
      /\ clock w' = S (S (clock w))
      /\ (if faults w (S (clock w))
          then tokens w' = tokens w
               /\ logs w'
                  = logs w ++ ["failed to update token status" +:+ Error ErrDB]
          else tokens w' = update_tokens (Id t) (mark s t) (tokens w)
               /\ logs w' = logs w)) as Hpersist.
  { intros s.
    cbv beta iota zeta delta
      [persist_status SelectUpdate SysError bind db_stmt ret modify].
    cbn [faults clock tick].
    destruct (faults w (S (clock w))); eexists; (split; [reflexivity|]); done. }
  destruct (expired t (timestamp w)) eqn:Hexp.
  - destruct (Hpersist TokenStatusExpired) as (w' & Hp & Hc & H).
    mstep. rewrite Hp. exists w'. done.
  - destruct Hdeny as [? | Hexh]; [done|]. rewrite Hexh.
    destruct (Hpersist TokenStatusExhausted) as (w' & Hp & Hc & H).
    mstep. rewrite Hp. exists w'. done.
Qed.

Lemma Validate_denies_and_marks_witness :
  exists w',
    ValidateUserToken "sk-demo"
      (demo_world (demo_token 0 false) (fault_at 1))
    = (Val (None, Some ErrExhausted), w')
    /\ clock w' = 2%nat
    /\ tokens w' = [demo_token 0 false]
    /\ logs w' = ["failed to update token status" +:+ Error ErrDB].
Proof.
  apply (Validate_denies_and_marks
           (demo_world (demo_token 0 false) (fault_at 1)) "sk-demo"
           (demo_token 0 false)).
  - discriminate.
  - reflexivity.
  - reflexivity.
  - reflexivity.
  - right. reflexivity.
Defined.

(** C9 as stated fails on a found credential that is expired but whose
    status is no longer Enabled: the denial is the status error, not the
    expiry error, and no statement that would record a status is issued. *)
Lemma Validate_lapsed_not_marked :
  let w := demo_world lapsed_token no_faults in
  first_token_by_key "sk-demo" (tokens w) = Some lapsed_token
  /\ expired lapsed_token (timestamp w) = true
  /\ ValidateUserToken "sk-demo" w = (Val (None, Some ErrStatus), tick w)
  /\ ~ (exists w',
          ValidateUserToken "sk-demo" w = (Val (None, Some ErrExpired), w')).
Proof.
  simpl. split; [reflexivity|]. split; [reflexivity|].
  split; [reflexivity|].
  intros (w' & Hrun). vm_compute in Hrun. discriminate.
Qed.

(** ** The aggregator *)

Lemma record_event_existing (ev : Token) (m : gmap Z cell) (v : Z) :
  m !! Id ev = Some (PInt32 v) ->
  record_event ev m
  = (Val tt, <[Id ev := PInt32 (add_int32 v (to_int32 (UsedQuota ev)))]> m).
Proof. intros H. unfold record_event. by rewrite H. Qed.

Lemma record_event_existing_pending (ev : Token) (m : gmap Z cell) (v : Z) :
  m !! Id ev = Some (PInt32 v) ->
  pending (Id ev) (record_event ev m).2
  = add_int32 v (to_int32 (UsedQuota ev)).
Proof.
  intros H. rewrite (record_event_existing ev m v H).
  unfold pending. cbn [snd]. by rewrite lookup_insert_eq.
Qed.

(** C6, where the code departs from it: for an event whose credential has
    no cell yet, the consumer stores a fresh zero cell and then asserts
    the type of the value it loaded before, which is nil; it faults, and
    the delta of the event is in no cell. *)
Theorem record_event_first_touch (ev : Token) (m : gmap Z cell) :
  m !! Id ev = None ->
  record_event ev m = (Panic NilInterface, <[Id ev := PInt32 0]> m)
  /\ pending (Id ev) (record_event ev m).2 = 0.
Proof.
  intros H. unfold record_event. rewrite H. cbn [assert_int32 snd].
  split; [done|]. unfold pending. by rewrite lookup_insert_eq.
Qed.

Lemma record_event_first_touch_witness :
  record_event (pending_token 7 5) ∅
  = (Panic NilInterface, <[7 := PInt32 0]> ∅)
  /\ pending 7 (record_event (pending_token 7 5) ∅).2 = 0.
Proof.
  apply (record_event_first_touch (pending_token 7 5) ∅).
  apply lookup_empty.
Defined.

Lemma snapshot_faults (entries : list (Z * cell)) (k v : Z) :
  (k, PInt v) ∈ entries -> snapshot entries = Panic WrongDynamicType.
Proof.
  induction entries as [|[k' c] rest IH]; intros Hin.
  - by apply elem_of_nil in Hin.
  - cbn [snapshot]. destruct c as [v'|v']; cbn [assert_int32]; [|done].
    apply elem_of_cons in Hin as [Heq | Hin]; [congruence|].
    by rewrite (IH Hin).
Qed.

Lemma drain_faults (m : gmap Z cell) (k v : Z) :
  m !! k = Some (PInt v) -> drain m = (Panic WrongDynamicType, m).
Proof.
  intros H. unfold drain.
  by rewrite (snapshot_faults (map_to_list m) k v)
    by (by apply elem_of_map_to_list).
Qed.

Lemma requeue_keeps_int (fail : list Token) (m : gmap Z cell) (k v : Z) :
  m !! k = Some (PInt v) ->
  exists v', requeue fail m !! k = Some (PInt v').
Proof.
  revert m v. induction fail as [|t fail IH]; intros m v H.
  - by exists v.
  - unfold requeue. cbn [foldl]. fold (requeue fail).
    destruct (decide (Id t = k)) as [<- | Hne].
    + apply (IH _ (UsedQuota t)). by rewrite lookup_insert_eq.
    + apply (IH _ v). by rewrite lookup_insert_ne.
Qed.

Lemma requeue_stores_int (fail : list Token) (m : gmap Z cell) (t : Token) :
  t ∈ fail ->
  exists v, requeue fail m !! Id t = Some (PInt v).
Proof.
  revert m. induction fail as [|t' fail IH]; intros m Hin.
  - by apply elem_of_nil in Hin.
  - unfold requeue. cbn [foldl]. fold (requeue fail).
    apply elem_of_cons in Hin as [-> | Hin].
    + apply (requeue_keeps_int _ _ _ (UsedQuota t')).
      by rewrite lookup_insert_eq.
    + by apply IH.
Qed.

(** C8, where the code departs from it: a failed entry is stored back
    over whatever cell its credential has by then, so the delta recorded
    since the drain is gone and the pending sum is the failed delta
    alone; and what is stored is the address of an [int], on which the
    next drain faults, so the failed delta never reaches a later batch. *)
Theorem requeue_overwrites (m : gmap Z cell) (fail : list Token) (t : Token) :
  t ∈ fail ->
  pending (Id t) (requeue [t] m) = UsedQuota t
  /\ drain (requeue fail m) = (Panic WrongDynamicType, requeue fail m).
Proof.
  intros Hin. split.
  - unfold requeue, pending. cbn [foldl]. by rewrite lookup_insert_eq.
  - destruct (requeue_stores_int fail m t Hin) as [v Hv].
    by apply (drain_faults _ (Id t) v).
Qed.

Lemma requeue_overwrites_witness :
  pending 7 {[7 := PInt32 3]} = 3
  /\ pending 7 (requeue [pending_token 7 5] {[7 := PInt32 3]}) = 5
  /\ drain (requeue [pending_token 7 5] {[7 := PInt32 3]})
     = (Panic WrongDynamicType,
        requeue [pending_token 7 5] {[7 := PInt32 3]}).
Proof.
  split; [reflexivity|].
  apply (requeue_overwrites {[7 := PInt32 3]} [pending_token 7 5]
           (pending_token 7 5)).
  apply list_elem_of_singleton. reflexivity.
Defined.

(** ** batchConsumeTokenQuota *)

Lemma run_app (a b : list thread) (s : Batch) :
  run (a ++ b) s
  = match run a s with
    | Some (Val s') => run b s'
    | other => other
    end.
Proof.
  revert s. induction a as [|th a IH]; intros s; cbn [app run].
  - by destruct (run b s) as [[?|?]|].
  - destruct (step th s) as [[s'|p]|]; [apply IH | done | done].
Qed.

Lemma step_main_spawn (tokens rest : list Token) (w : World)
    (ws : list worker_pc) (i : nat) (t : Token) :
  step Main (spawned tokens w ws (MainInner i (t :: rest)))
  = Some (Val (spawned tokens w (ws ++ [WorkerUpdate t]) (MainInner i rest))).
Proof.
  unfold spawned, step, step_main.
  cbn [b_main b_world b_tokens b_collector b_workers b_failChan b_failClosed
       b_completeClosed b_fail b_wg].
  rewrite length_app. cbn [length].
  replace (Z.of_nat (length ws) + 1) with (Z.of_nat (length ws + 1)) by lia.
  done.
Qed.

Lemma step_main_outer (tokens : list Token) (w : World)
    (ws : list worker_pc) (i : nat) :
  step Main (spawned tokens w ws (MainOuter i))
  = Some (Val (spawned tokens w ws
                 (if (i <? length tokens)%nat
                  then MainInner i (take batch (drop i tokens))
                  else MainClose))).
Proof. reflexivity. Qed.

(** The inner loop, main running alone: one goroutine per entry of the
    group is started and [wg.Add(1)] counted. *)
Lemma inner_loop_spawns (rest tokens : list Token) (w : World)
    (ws : list worker_pc) (i : nat) :
  exists sched,
    run sched (spawned tokens w ws (MainInner i rest))
    = Some (Val (spawned tokens w (ws ++ (WorkerUpdate <$> rest))
                   (MainOuter (i + batch)))).
Proof.
  revert ws. induction rest as [|t rest IH]; intros ws.
  - exists [Main]. cbn. by rewrite app_nil_r.
  - destruct (IH (ws ++ [WorkerUpdate t])) as [sched Hrun].
    exists (Main :: sched). cbn [run]. rewrite step_main_spawn, Hrun.
    cbn [fmap list_fmap]. by rewrite <- app_assoc.
Qed.

(** The outer loop, main running alone: it never waits between groups,
    and reaches [close(failChan)] with every goroutine started. *)
Lemma outer_loop_spawns (n : nat) (tokens : list Token) (w : World)
    (i : nat) :
  (length tokens - i <= n)%nat ->
  exists sched,
    run sched (spawned tokens w (WorkerUpdate <$> take i tokens) (MainOuter i))
    = Some (Val (spawned tokens w (WorkerUpdate <$> tokens) MainClose)).
Proof.
  revert i. induction n as [|n IH]; intros i Hn.
  - exists [Main]. cbn [run]. rewrite step_main_outer.
    rewrite (proj2 (Nat.ltb_ge _ _)) by lia.
    rewrite take_ge by lia. done.
  - destruct (i <? length tokens)%nat eqn:E.
    + apply Nat.ltb_lt in E.
      destruct (inner_loop_spawns (take batch (drop i tokens)) tokens w
                  (WorkerUpdate <$> take i tokens) i) as [s1 H1].
      destruct (IH (i + batch)%nat) as [s2 H2]; [unfold batch; lia|].
      rewrite <- fmap_app, take_take_drop in H1.
      exists (Main :: s1 ++ s2).
      cbn [run]. rewrite step_main_outer, (proj2 (Nat.ltb_lt _ _) E).
      by rewrite run_app, H1.
    + apply Nat.ltb_ge in E.
      exists [Main]. cbn [run]. rewrite step_main_outer.
      rewrite (proj2 (Nat.ltb_ge _ _) E), take_ge by lia. done.
Qed.

(** C7, where the code departs from it: the WaitGroup is counted up and
    down but never waited on. For every batch there is a schedule in
    which main starts all workers, closes failChan and returns the empty
    list before any worker has run; a worker whose update the store then
    turns down sends on the closed channel. *)
Theorem batch_returns_before_workers (tokens : list Token) (w : World) :
  exists sched,
    run sched (batch_init tokens w) = Some (Val (returned_early tokens w))
    /\ (forall t rest,
          tokens = t :: rest ->
          0 < UsedQuota t ->
          faults w (clock w) = true ->
          run (sched ++ [Worker 0; Worker 0]) (batch_init tokens w)
          = Some (Panic SendOnClosedChannel)).
Proof.
  destruct (outer_loop_spawns (length tokens) tokens w 0) as [s1 H1]; [lia|].
  exists (s1 ++ [Main; Collector; Main]).
  assert (run (s1 ++ [Main; Collector; Main]) (batch_init tokens w)
          = Some (Val (returned_early tokens w))) as Hret.
  { rewrite run_app. change (batch_init tokens w)
      with (spawned tokens w (WorkerUpdate <$> take 0 tokens) (MainOuter 0)).
    rewrite H1. cbn. by rewrite length_fmap. }
  split; [exact Hret|].
  intros t rest -> Hq Hf. rewrite run_app, Hret.
  cbn [run step step_worker returned_early b_workers fmap list_fmap lookup
       list_lookup b_world].
  unfold persist_one. rewrite (proj2 (Z.ltb_lt _ _) Hq).
  rewrite DecreaseTokenQuota_fault by (done || lia). done.
Qed.

Lemma batch_returns_before_workers_witness :
  exists sched,
    run sched
      (batch_init one_delta (demo_world (demo_token 400 false) all_faults))
    = Some (Val (returned_early one_delta
                   (demo_world (demo_token 400 false) all_faults)))
    /\ run (sched ++ [Worker 0; Worker 0])
         (batch_init one_delta
            (demo_world (demo_token 400 false) all_faults))
       = Some (Panic SendOnClosedChannel).
Proof.
  destruct (batch_returns_before_workers one_delta
              (demo_world (demo_token 400 false) all_faults))
    as (sched & Hret & Hsend).
  exists sched. split; [exact Hret|].
  apply (Hsend (pending_token 7 5) []).
  - reflexivity.
  - simpl. lia.
  - reflexivity.
Defined.

(** The batch [one_delta] on a store that turns every statement down:
    main running ahead returns the empty list and the worker then faults;
    only when the worker happens to run first is the entry returned. *)
Lemma batch_one_delta_schedules :
  let s0 := batch_init one_delta
              (demo_world (demo_token 400 false) all_faults) in
  (exists s,
      run main_runs_ahead s0 = Some (Val s)
      /\ b_main s = MainReturned []
      /\ b_workers s = [WorkerUpdate (pending_token 7 5)]
      /\ b_wg s = 1)
  /\ run (main_runs_ahead ++ [Worker 0; Worker 0]) s0
     = Some (Panic SendOnClosedChannel)
  /\ (exists s,
        run worker_runs_first s0 = Some (Val s)
        /\ b_main s = MainReturned one_delta
        /\ b_workers s = [WorkerDone]
        /\ b_wg s = 0).
Proof.
  cbv zeta. split; [|split].
  - eexists. split; [vm_compute; reflexivity|]. done.
  - vm_compute. reflexivity.
  - eexists. split; [vm_compute; reflexivity|]. done.
Qed.

(** ** A whole tick *)

(** A tick that drains the delta 5 of credential 7 on a store that turns
    the update down, the worker running first: the entry comes back as
    failed and is stored again, and the drain of the next tick faults on
    it. *)
Lemma flush_cycle_failed_entry_poisons :
  exists w',
    flush_cycle worker_runs_first {[7 := PInt32 5]}
      (demo_world (demo_token 400 false) all_faults)
    = Some (Val ({[7 := PInt 5]}, w'))
    /\ tokens w' = [demo_token 400 false]
    /\ forall sched w'',
        flush_cycle sched {[7 := PInt 5]} w''
        = Some (Panic WrongDynamicType).
Proof.
  eexists. split; [vm_compute; reflexivity|]. split; [reflexivity|].
  intros sched w''. unfold flush_cycle.
  by rewrite (drain_faults _ 7 5) by apply lookup_singleton_eq.
Qed.

(** * Further properties of the guard *)

Lemma first_user_update_other (id id' : Z) (f : User -> User)
    (rows : list User) :
  id <> id' ->
  (forall u, AccountId (f u) = AccountId u) ->
  first_user id' (update_users id f rows) = first_user id' rows.
Proof.
  intros Hne Hid. induction rows as [|u rows IH]; simpl; [done|].
  destruct (AccountId u =? id) eqn:E.
  - apply Z.eqb_eq in E. rewrite Hid.
    destruct (AccountId u =? id') eqn:E'; [apply Z.eqb_eq in E'; congruence|].
    exact IH.
  - destruct (AccountId u =? id'); [done | exact IH].
Qed.

(** X1: PreConsumeTokenQuota returns on every input, and
    PostConsumeTokenQuota returns exactly when tokenId is not 0; at
    tokenId 0 it faults on the nil pointer, whatever the amount and the
    store. *)
Theorem guard_faults_only_at_zero_id (w : World) (id q : Z) :
  (exists r w', PreConsumeTokenQuota id q w = (Val r, w'))
  /\ ((exists r w', PostConsumeTokenQuota id q w = (Val r, w')) <-> id <> 0)
  /\ PostConsumeTokenQuota 0 q w = (Panic NilDereference, w).
Proof.
  split; [|split; [split|]].
  - mrun.
    repeat (match goal with
            | |- context [if ?c then _ else _] => destruct c
            | |- context [match ?c with Some _ => _ | None => _ end] =>
                destruct c
            end; cbv beta iota);
      eexists _, _; reflexivity.
  - intros (r & w' & Hrun) ->. vm_compute in Hrun. discriminate.
  - intros Hid. mrun. rewrite (proj2 (Z.eqb_neq _ _) Hid).
    repeat (match goal with
            | |- context [if ?c then _ else _] => destruct c
            | |- context [match ?c with Some _ => _ | None => _ end] =>
                destruct c
            end; cbv beta iota);
      eexists _, _; reflexivity.
  - reflexivity.
Qed.

(** X2: whatever the store does and whatever it returns,
    PreConsumeTokenQuota leaves the row of every other credential as it
    was, and the row of every account other than the owner of the
    credential; when the credential has no row, no account is written. *)
Theorem PreConsume_touches_only_its_own (w w' : World) (id q : Z)
    (r : res (option error)) :
  PreConsumeTokenQuota id q w = (r, w') ->
  (forall id', id' <> id ->
     first_token id' (tokens w') = first_token id' (tokens w))
  /\ (forall t uid,
        first_token id (tokens w) = Some t -> uid <> UserId t ->
        first_user uid (users w') = first_user uid (users w))
  /\ (first_token id (tokens w) = None -> users w' = users w).
Proof.
  mrun. intros Hrun. mcases Hrun; simplify_eq;
    cbn [tokens users tick add_notice set_tokens set_users];
    (split; [|split]);
    first
      [ done
      | intros id' Hne; by apply first_token_update_other
      | intros t' uid Ht' Hne; simplify_eq;
        first [done | by apply first_user_update_other] ].
Qed.

Lemma PreConsume_touches_only_its_own_witness :
  let w := demo_world (demo_token 400 false) no_faults in
  (forall id', id' <> 7 ->
     first_token id' (tokens (PreConsumeTokenQuota 7 100 w).2)
     = first_token id' (tokens w))
  /\ (forall t uid,
        first_token 7 (tokens w) = Some t -> uid <> UserId t ->
        first_user uid (users (PreConsumeTokenQuota 7 100 w).2)
        = first_user uid (users w))
  /\ (first_token 7 (tokens w) = None ->
      users (PreConsumeTokenQuota 7 100 w).2 = users w).
Proof.
  apply (PreConsume_touches_only_its_own
           (demo_world (demo_token 400 false) no_faults) _ 7 100
           (PreConsumeTokenQuota 7 100
              (demo_world (demo_token 400 false) no_faults)).1).
  reflexivity.
Defined.

(** X3: a PreConsumeTokenQuota that returns any error other than a store
    error (negative amount, empty id, no such row, credential or account
    quota too low) has written neither table. *)
Theorem PreConsume_error_writes_nothing (w w' : World) (id q : Z)
    (e : error) :
  PreConsumeTokenQuota id q w = (Val (Some e), w') ->
  e <> ErrDB ->
  tokens w' = tokens w /\ users w' = users w.
Proof.
  mrun. intros Hrun He. mcases Hrun; simplify_eq; done.
Qed.

Lemma PreConsume_error_writes_nothing_witness :
  let w := demo_world (demo_token 400 false) no_faults in
  tokens (PreConsumeTokenQuota 9 100 w).2 = tokens w
  /\ users (PreConsumeTokenQuota 9 100 w).2 = users w.
Proof.
  apply (PreConsume_error_writes_nothing
           (demo_world (demo_token 400 false) no_faults) _ 9 100
           ErrRecordNotFound).
  - reflexivity.
  - discriminate.
Defined.

(** X4: a call of PreConsumeTokenQuota that runs alone, with no other
    write to the two tables between its lookups and its debits, succeeds
    only on a non-negative amount that the account covers and, unless the
    credential is unlimited, that the credential covers: after such a
    success the account's remaining is its old value less the amount and
    not negative, and so is the remaining of a credential that is not
    unlimited. The function takes no lock and opens no transaction, so
    this says nothing of calls whose statements interleave. *)
Theorem PreConsume_alone_covers_debit (w w' : World) (id q : Z) (t : Token) :
  PreConsumeTokenQuota id q w = (Val None, w') ->
  first_token id (tokens w) = Some t ->
  0 <= q
  /\ (exists u u',
        first_user (UserId t) (users w) = Some u
        /\ first_user (UserId t) (users w') = Some u'
        /\ Quota u' = Quota u - q
        /\ 0 <= Quota u')
  /\ (UnlimitedQuota t = false ->
      exists t',
        first_token id (tokens w') = Some t'
        /\ RemainQuota t' = RemainQuota t - q
        /\ 0 <= RemainQuota t').
Proof.
  mrun. intros Hrun Ht. mcases Hrun; simplify_eq;
    cbn [tokens users tick add_notice set_tokens set_users];
    repeat match goal with
           | H : (_ <? _) = false |- _ => apply Z.ltb_ge in H
           | H : (_ && _) = false |- _ => apply andb_false_iff in H
           | H : negb _ = true |- _ => apply negb_true_iff in H
           | H : negb _ = false |- _ => apply negb_false_iff in H
           end;
    (split; [done|]); split.
  all: try (eexists _, _; split; [eassumption|];
            rewrite first_user_update by done;
            match goal with H : first_user _ _ = Some _ |- _ => rewrite H end;
            split; [reflexivity|]; simpl; split; lia).
  all: intros Hunl;
    first
      [ congruence
      | eexists; rewrite first_token_update by done;
        match goal with
        | H : first_token _ _ = Some _ |- _ => rewrite H
        end;
        split; [reflexivity|]; simpl;
        match goal with
        | H : _ \/ _ |- _ =>
            destruct H as [H | H]; [congruence | apply Z.ltb_ge in H]
        end; split; lia ].
Qed.

Lemma PreConsume_alone_covers_debit_witness :
  let w := demo_world (demo_token 400 false) no_faults in
  0 <= 400
  /\ (exists u u',
        first_user 3 (users w) = Some u
        /\ first_user 3 (users (PreConsumeTokenQuota 7 400 w).2) = Some u'
        /\ Quota u' = Quota u - 400
        /\ 0 <= Quota u')
  /\ (false = false ->
      exists t',
        first_token 7 (tokens (PreConsumeTokenQuota 7 400 w).2) = Some t'
        /\ RemainQuota t' = 400 - 400
        /\ 0 <= RemainQuota t').
Proof.
  apply (PreConsume_alone_covers_debit
           (demo_world (demo_token 400 false) no_faults) _ 7 400
           (demo_token 400 false)); reflexivity.
Defined.



(** * Relative updates and how they compose *)

Lemma update_tokens_ext (id : Z) (f g : Token -> Token) (rows : list Token) :
  (forall t, f t = g t) -> update_tokens id f rows = update_tokens id g rows.
Proof.
  intros H. induction rows as [|t rows IH]; simpl; [done|].
  by rewrite H, IH.
Qed.

Lemma update_users_ext (id : Z) (f g : User -> User) (rows : list User) :
  (forall u, f u = g u) -> update_users id f rows = update_users id g rows.
Proof.
  intros H. induction rows as [|u rows IH]; simpl; [done|].
  by rewrite H, IH.
Qed.

Lemma update_tokens_twice (id : Z) (f g : Token -> Token)
    (rows : list Token) :
  (forall t, Id (g t) = Id t) ->
  update_tokens id f (update_tokens id g rows)
  = update_tokens id (fun t => f (g t)) rows.
Proof.
  intros Hg. induction rows as [|t rows IH]; simpl; [done|].
  rewrite IH. destruct (Id t =? id) eqn:E.
  - by rewrite Hg, E.
  - by rewrite E.
Qed.

Lemma update_users_twice (id : Z) (f g : User -> User) (rows : list User) :
  (forall u, AccountId (g u) = AccountId u) ->
  update_users id f (update_users id g rows)
  = update_users id (fun u => f (g u)) rows.
Proof.
  intros Hg. induction rows as [|u rows IH]; simpl; [done|].
  rewrite IH. destruct (AccountId u =? id) eqn:E.
  - by rewrite Hg, E.
  - by rewrite E.
Qed.

Lemma update_tokens_comm (id1 id2 : Z) (f g : Token -> Token)
    (rows : list Token) :
  (forall t, Id (f t) = Id t) ->
  (forall t, Id (g t) = Id t) ->
  (forall t, f (g t) = g (f t)) ->
  update_tokens id1 f (update_tokens id2 g rows)
  = update_tokens id2 g (update_tokens id1 f rows).
Proof.
  intros Hf Hg Hfg. induction rows as [|t rows IH]; simpl; [done|].
  rewrite IH. f_equal.
  destruct (Id t =? id2) eqn:E2; destruct (Id t =? id1) eqn:E1;
    rewrite ?Hf, ?Hg, ?E1, ?E2; done.
Qed.

Lemma credit_token_credit (a b : Z) (t : Token) :
  credit_token a (credit_token b t) = credit_token (b + a) t.
Proof. destruct t. unfold credit_token. simpl. f_equal; lia. Qed.

Lemma credit_user_credit (a b : Z) (u : User) :
  credit_user a (credit_user b u) = credit_user (b + a) u.
Proof. destruct u. unfold credit_user. simpl. f_equal; lia. Qed.

Lemma update_tokens_credit_twice (id a b : Z) (rows : list Token) :
  update_tokens id (credit_token a) (update_tokens id (credit_token b) rows)
  = update_tokens id (credit_token (b + a)) rows.
Proof.
  rewrite update_tokens_twice by done.
  apply update_tokens_ext. intros t. apply credit_token_credit.
Qed.

Lemma update_users_credit_twice (id a b : Z) (rows : list User) :
  update_users id (credit_user a) (update_users id (credit_user b) rows)
  = update_users id (credit_user (b + a)) rows.
Proof.
  rewrite update_users_twice by done.
  apply update_users_ext. intros u. apply credit_user_credit.
Qed.

(** X6: on a store that answers, for an existing credential and an
    adjustment other than the least [int] that leaves the adjusted
    counters within the 64-bit range of their columns,
    PostConsumeTokenQuota with the adjustment followed by
    PostConsumeTokenQuota with its opposite leaves both tables exactly as
    they were, the counters being within range in between. *)
Theorem PostConsume_then_opposite (w : World) (id q : Z) (t : Token) :
  healthy w ->
  id <> 0 ->
  first_token id (tokens w) = Some t ->
  min_int < q <= max_int ->
  store_fits w ->
  users_fit (update_users (UserId t) (credit_user (- q)) (users w)) ->
  (UnlimitedQuota t = false ->
   tokens_fit (update_tokens id (credit_token (- q)) (tokens w))) ->
  exists w1 w2,
    PostConsumeTokenQuota id q w = (Val None, w1)
    /\ store_fits w1
    /\ PostConsumeTokenQuota id (- q) w1 = (Val None, w2)
    /\ tokens w2 = tokens w
    /\ users w2 = users w.
Proof.
  intros Hh Hid Ht Hq [Hfit_t Hfit_u] Hafter_u Hafter_t.
  destruct (PostConsume_settles w id q t Hh Hid Ht Hq)
    as (w1 & Hrun1 & Hh1 & Hus1 & Hts1).
  assert (min_int < - q <= max_int) as Hq'.
  { unfold min_int, max_int, int_bits in *. simpl in *. lia. }
  assert (exists t1,
             first_token id (tokens w1) = Some t1
             /\ UserId t1 = UserId t
             /\ UnlimitedQuota t1 = UnlimitedQuota t) as (t1 & Ht1 & Hu1 & Hl1).
  { rewrite Hts1. destruct (UnlimitedQuota t) eqn:E.
    - by exists t.
    - exists (credit_token (- q) t).
      by rewrite first_token_update, Ht. }
  destruct (PostConsume_settles w1 id (- q) t1 Hh1 Hid Ht1 Hq')
    as (w2 & Hrun2 & _ & Hus2 & Hts2).
  exists w1, w2. split; [exact Hrun1|].
  split.
  { split; [|by rewrite Hus1]. rewrite Hts1.
    destruct (UnlimitedQuota t); [done | by apply Hafter_t]. }
  split; [exact Hrun2|].
  rewrite Hu1 in Hus2. rewrite Hl1 in Hts2.
  split.
  - rewrite Hts2. destruct (UnlimitedQuota t); [by rewrite Hts1|].
    rewrite Hts1, update_tokens_credit_twice.
    replace (- q + - - q) with 0 by lia. apply update_tokens_credit_0.
  - rewrite Hus2, Hus1, update_users_credit_twice.
    replace (- q + - - q) with 0 by lia. apply update_users_credit_0.
Qed.

Lemma PostConsume_then_opposite_witness :
  exists w1 w2,
    PostConsumeTokenQuota 7 30 (demo_world (demo_token 400 false) no_faults)
    = (Val None, w1)
    /\ store_fits w1
    /\ PostConsumeTokenQuota 7 (- 30) w1 = (Val None, w2)
    /\ tokens w2 = [demo_token 400 false]
    /\ users w2 = [demo_user].
Proof.
  apply (PostConsume_then_opposite
           (demo_world (demo_token 400 false) no_faults) 7 30
           (demo_token 400 false)).
  - intros n. reflexivity.
  - lia.
  - reflexivity.
  - unfold min_int, max_int, int_bits. simpl. lia.
  - fits.
  - fits.
  - intros _. fits.
Defined.

(** X7: on a store that answers, for an existing credential of an
    existing account, an estimate that PreConsumeTokenQuota accepts (not
    negative, covered by the account and, unless the credential is
    unlimited, by the credential) and a signed adjustment other than the
    least [int], such that the counters stay within the 64-bit range of
    their columns after each of the two calls: PreConsumeTokenQuota with
    the estimate followed by PostConsumeTokenQuota with the adjustment
    debits the account by their sum, and the credential by the same sum
    unless it is unlimited, in which case its row is never written. *)
Theorem Pre_then_Post_debits_sum (w : World) (id est delta : Z) (t : Token)
    (u : User) :
  healthy w ->
  id <> 0 ->
  first_token id (tokens w) = Some t ->
  first_user (UserId t) (users w) = Some u ->
  0 <= est ->
  UnlimitedQuota t = true \/ est <= RemainQuota t ->
  est <= Quota u ->
  min_int < delta <= max_int ->
  store_fits w ->
  users_fit (update_users (UserId t) (credit_user (- est)) (users w)) ->
  users_fit
    (update_users (UserId t) (credit_user (- (est + delta))) (users w)) ->
  (UnlimitedQuota t = false ->
   tokens_fit (update_tokens id (credit_token (- est)) (tokens w))
   /\ tokens_fit
        (update_tokens id (credit_token (- (est + delta))) (tokens w))) ->
  exists w1 w2,
    PreConsumeTokenQuota id est w = (Val None, w1)
    /\ store_fits w1
    /\ PostConsumeTokenQuota id delta w1 = (Val None, w2)
    /\ store_fits w2
    /\ users w2
       = update_users (UserId t) (credit_user (- (est + delta))) (users w)
    /\ tokens w2
       = (if UnlimitedQuota t then tokens w
          else update_tokens id (credit_token (- (est + delta))) (tokens w)).
Proof.
  intros Hh Hid Ht Hu He Hr Ha Hd [Hfit_t Hfit_u] Hmid_u Hend_u Hfit.
  destruct (PreConsume_accepts w id est t u Hh Hid Ht Hu He Hr Ha)
    as (w1 & Hpre & Hh1 & Hus1 & Hts1).
  assert (exists t1,
             first_token id (tokens w1) = Some t1
             /\ UserId t1 = UserId t
             /\ UnlimitedQuota t1 = UnlimitedQuota t) as (t1 & Ht1 & Hu1 & Hl1).
  { rewrite Hts1. destruct (UnlimitedQuota t) eqn:E.
    - by exists t.
    - exists (credit_token (- est) t).
      by rewrite first_token_update, Ht. }
  destruct (PostConsume_settles w1 id delta t1 Hh1 Hid Ht1 Hd)
    as (w2 & Hpost & _ & Hus2 & Hts2).
  rewrite Hu1 in Hus2. rewrite Hl1 in Hts2.
  assert (users w2
          = update_users (UserId t) (credit_user (- (est + delta))) (users w))
    as Hus.
  { rewrite Hus2, Hus1, update_users_credit_twice.
    by replace (- est + - delta) with (- (est + delta)) by lia. }
  assert (tokens w2
          = (if UnlimitedQuota t then tokens w
             else update_tokens id (credit_token (- (est + delta)))
                    (tokens w))) as Hts.
  { rewrite Hts2. destruct (UnlimitedQuota t); [by rewrite Hts1|].
    rewrite Hts1, update_tokens_credit_twice.
    by replace (- est + - delta) with (- (est + delta)) by lia. }
  exists w1, w2. split; [exact Hpre|].
  split.
  { split; [|by rewrite Hus1]. rewrite Hts1.
    destruct (UnlimitedQuota t); [done | by apply Hfit]. }
  split; [exact Hpost|].
  split.
  { split; [|by rewrite Hus]. rewrite Hts.
    destruct (UnlimitedQuota t); [done | by apply Hfit]. }
  split; [exact Hus | exact Hts].
Qed.

Lemma Pre_then_Post_debits_sum_witness :
  exists w1 w2,
    PreConsumeTokenQuota 7 100 (demo_world (demo_token 0 true) no_faults)
    = (Val None, w1)
    /\ store_fits w1
    /\ PostConsumeTokenQuota 7 25 w1 = (Val None, w2)
    /\ store_fits w2
    /\ users w2 = update_users 3 (credit_user (- (100 + 25))) [demo_user]
    /\ tokens w2 = [demo_token 0 true].
Proof.
  apply (Pre_then_Post_debits_sum
           (demo_world (demo_token 0 true) no_faults) 7 100 25
           (demo_token 0 true) demo_user).
  - intros n. reflexivity.
  - lia.
  - reflexivity.
  - reflexivity.
  - lia.
  - left. reflexivity.
  - simpl. lia.
  - unfold min_int, max_int, int_bits. simpl. lia.
  - fits.
  - fits.
  - fits.
  - intros Hunl. discriminate Hunl.
Defined.

(** X9: what one worker of batchConsumeTokenQuota does to the store when
    its statement succeeds, for a delta other than the least [int] that
    leaves the counters of the credential within the 64-bit range of
    their columns: the rows of the credential get remaining less the
    delta and used plus the delta; a zero delta sends no statement at
    all; and a delta for a credential that has no row is reported as
    persisted although no row changed. *)
Theorem persist_one_applies_delta (w : World) (token : Token) :
  faults w (clock w) = false ->
  min_int < UsedQuota token <= max_int ->
  tokens_fit (tokens w) ->
  tokens_fit
    (update_tokens (Id token) (credit_token (- UsedQuota token)) (tokens w)) ->
  exists w',
    persist_one token w = (Val None, w')
    /\ tokens_fit (tokens w')
    /\ tokens w'
       = update_tokens (Id token) (credit_token (- UsedQuota token)) (tokens w)
    /\ users w' = users w
    /\ (UsedQuota token = 0 -> w' = w)
    /\ (first_token (Id token) (tokens w) = None -> tokens w' = tokens w).
Proof.
  intros Hf Hq Hfit Hafter. unfold persist_one.
  assert (forall w',
             tokens w'
             = update_tokens (Id token) (credit_token (- UsedQuota token))
                 (tokens w) ->
             first_token (Id token) (tokens w) = None ->
             tokens w' = tokens w) as Habsent.
  { intros w' -> Hnone. by apply update_tokens_absent. }
  destruct (0 <? UsedQuota token) eqn:E1.
  - apply Z.ltb_lt in E1.
    rewrite DecreaseTokenQuota_ok by first [lia | done].
    eexists. split; [reflexivity|]. split; [exact Hafter|].
    split; [reflexivity|].
    split; [reflexivity|]. split; [lia|]. by apply Habsent.
  - apply Z.ltb_ge in E1. destruct (UsedQuota token <? 0) eqn:E2.
    + apply Z.ltb_lt in E2. rewrite (neg_int_exact _ Hq).
      rewrite IncreaseTokenQuota_ok by first [lia | done].
      replace (- - UsedQuota token) with (UsedQuota token) in Hafter by lia.
      eexists. split; [reflexivity|]. split; [exact Hafter|].
      replace (- - UsedQuota token) with (UsedQuota token) by lia.
      split; [reflexivity|].
      split; [reflexivity|]. split; [lia|]. by apply Habsent.
    + apply Z.ltb_ge in E2. exists w.
      replace (UsedQuota token) with 0 by lia. change (- 0) with 0.
      rewrite update_tokens_credit_0. done.
Qed.

Lemma persist_one_applies_delta_witness :
  exists w',
    persist_one (pending_token 7 (- 5))
      (demo_world (demo_token 400 false) no_faults)
    = (Val None, w')
    /\ tokens_fit (tokens w')
    /\ tokens w'
       = update_tokens 7 (credit_token (- - 5)) [demo_token 400 false]
    /\ users w' = [demo_user]
    /\ (- 5 = 0 -> w' = demo_world (demo_token 400 false) no_faults)
    /\ (first_token 7 [demo_token 400 false] = None ->
        tokens w' = [demo_token 400 false]).
Proof.
  apply (persist_one_applies_delta
           (demo_world (demo_token 400 false) no_faults)
           (pending_token 7 (- 5))).
  - reflexivity.
  - unfold min_int, max_int, int_bits. simpl. lia.
  - fits.
  - fits.
Defined.

(** * Further properties of validation *)

Lemma first_token_by_key_sound (k : string) (rows : list Token) (t : Token) :
  first_token_by_key k rows = Some t -> Key t = k /\ t ∈ rows.
Proof.
  induction rows as [|r rows IH]; simpl; [done|].
  destruct (String.eqb (Key r) k) eqn:E.
  - intros [= ->]. apply String.eqb_eq in E. split; [done|]. by left.
  - intros H. destruct (IH H) as [? ?]. split; [done|]. by right.
Qed.

Lemma first_token_by_key_update (k : string) (id : Z) (f : Token -> Token)
    (rows : list Token) :
  (forall t, Key (f t) = Key t) ->
  first_token_by_key k (update_tokens id f rows)
  = (fun r => if Id r =? id then f r else r) <$> first_token_by_key k rows.
Proof.
  intros Hk. induction rows as [|r rows IH]; simpl; [done|].
  assert (Key (if Id r =? id then f r else r) = Key r) as ->.
  { by destruct (Id r =? id). }
  by destruct (String.eqb (Key r) k).
Qed.


(** X11: a token handed back by ValidateUserToken is a row of the table
    under the key asked for, the key is not empty, the row is enabled,
    not expired at the time of the call and not exhausted; the call has
    written no table and has started the goroutine that refreshes the
    access time of that row. *)
Theorem Validate_grant_sound (w w' : World) (key : string) (t : Token) :
  ValidateUserToken key w = (Val (Some t, None), w') ->
  key <> ""
  /\ first_token_by_key key (tokens w) = Some t
  /\ Key t = key
  /\ Status t = TokenStatusEnabled
  /\ expired t (timestamp w) = false
  /\ exhausted t = false
  /\ tokens w' = tokens w
  /\ users w' = users w
  /\ touches w' = touches w ++ [t].
Proof.
  mrun. intros Hrun. mcases Hrun; simplify_eq.
  match goal with
  | H : first_token_by_key _ _ = Some _ |- _ =>
      destruct (first_token_by_key_sound _ _ _ H) as [Hk _]
  end.
  match goal with
  | H : String.eqb _ _ = false |- _ => apply String.eqb_neq in H
  end.
  match goal with
  | H : negb (_ =? _) = false |- _ =>
      apply negb_false_iff, Z.eqb_eq in H
  end.
  done.
Qed.

Lemma Validate_grant_sound_witness :
  let w := demo_world (demo_token 400 false) no_faults in
  "sk-demo" <> ""
  /\ first_token_by_key "sk-demo" (tokens w) = Some (demo_token 400 false)
  /\ Key (demo_token 400 false) = "sk-demo"
  /\ Status (demo_token 400 false) = TokenStatusEnabled
  /\ expired (demo_token 400 false) (timestamp w) = false
  /\ exhausted (demo_token 400 false) = false
  /\ tokens (ValidateUserToken "sk-demo" w).2 = tokens w
  /\ users (ValidateUserToken "sk-demo" w).2 = users w
  /\ touches (ValidateUserToken "sk-demo" w).2
     = touches w ++ [demo_token 400 false].
Proof.
  apply (Validate_grant_sound
           (demo_world (demo_token 400 false) no_faults) _ "sk-demo"
           (demo_token 400 false)).
  reflexivity.
Defined.

(** X12: when the lookup answers with a row that is enabled, not expired
    and not exhausted, ValidateUserToken hands that row back without an
    error, after the one lookup statement. *)
Theorem Validate_grants (w : World) (key : string) (t : Token) :
  key <> "" ->
  faults w (clock w) = false ->
  first_token_by_key key (tokens w) = Some t ->
  Status t = TokenStatusEnabled ->
  expired t (timestamp w) = false ->
  exhausted t = false ->
  ValidateUserToken key w = (Val (Some t, None), add_touch t (tick w)).
Proof.
  intros Hk Hf Ht Hs He Hx. unfold ValidateUserToken.
  rewrite (proj2 (String.eqb_neq _ _) Hk).
  mstep. rewrite (CacheGetTokenByKey_found w key t Hf Ht).
  mstep. cbn [deref]. unfold ret at 1.
  rewrite Hs. change (negb (TokenStatusEnabled =? TokenStatusEnabled))
    with false. cbv iota.
  mstep. unfold get at 1. cbn [timestamp tick]. rewrite He, Hx.
  reflexivity.
Qed.

Lemma Validate_grants_witness :
  ValidateUserToken "sk-demo" (demo_world (demo_token 400 false) no_faults)
  = (Val (Some (demo_token 400 false), None),
     add_touch (demo_token 400 false)
       (tick (demo_world (demo_token 400 false) no_faults))).
Proof.
  apply (Validate_grants (demo_world (demo_token 400 false) no_faults)
           "sk-demo" (demo_token 400 false));
    first [discriminate | reflexivity].
Defined.

Lemma mark_keeps_rest (s : Z) (t : Token) (id : Z) (rows : list Token) :
  Forall2
    (fun a b =>
       with_AccessedTime 0 (with_Status 0 a)
       = with_AccessedTime 0 (with_Status 0 b))
    rows (update_tokens id (mark s t) rows).
Proof.
  induction rows as [|r rows IH]; simpl; constructor; [|exact IH].
  by destruct (Id r =? id).
Qed.

(** X13: whatever the key, the store and the outcome, ValidateUserToken
    changes no quota: the users table is as it was, and every row of the
    tokens table is as it was in all columns other than status and
    accessed time. *)
Theorem Validate_keeps_quotas (w w' : World) (key : string)
    (r : res (option Token * option error)) :
  ValidateUserToken key w = (r, w') ->
  users w' = users w
  /\ Forall2
       (fun a b =>
          with_AccessedTime 0 (with_Status 0 a)
          = with_AccessedTime 0 (with_Status 0 b))
       (tokens w) (tokens w').
Proof.
  assert (forall rows : list Token,
             Forall2
               (fun a b =>
                  with_AccessedTime 0 (with_Status 0 a)
                  = with_AccessedTime 0 (with_Status 0 b)) rows rows)
    as Hrefl.
  { intros rows. induction rows; by constructor. }
  mrun. intros Hrun. mcases Hrun; simplify_eq;
    cbn [tokens users tick add_touch add_log set_tokens];
    (split; [done|]);
    first [apply Hrefl | apply mark_keeps_rest].
Qed.

Lemma Validate_keeps_quotas_witness :
  let w := demo_world (demo_token 0 false) no_faults in
  users (ValidateUserToken "sk-demo" w).2 = users w
  /\ Forall2
       (fun a b =>
          with_AccessedTime 0 (with_Status 0 a)
          = with_AccessedTime 0 (with_Status 0 b))
       (tokens w) (tokens (ValidateUserToken "sk-demo" w).2).
Proof.
  apply (Validate_keeps_quotas (demo_world (demo_token 0 false) no_faults)
           _ "sk-demo"
           (ValidateUserToken "sk-demo"
              (demo_world (demo_token 0 false) no_faults)).1).
  reflexivity.
Defined.

Lemma Validate_denial_persisted (w : World) (key : string) (t : Token) :
  key <> "" ->
  faults w (clock w) = false ->
  faults w (S (clock w)) = false ->
  first_token_by_key key (tokens w) = Some t ->
  Status t = TokenStatusEnabled ->
  expired t (timestamp w) = true \/ exhausted t = true ->
  ValidateUserToken key w
  = (Val (None,
          Some (if expired t (timestamp w) then ErrExpired
                else ErrExhausted)),
     set_tokens
       (update_tokens (Id t)
          (mark (if expired t (timestamp w) then TokenStatusExpired
                 else TokenStatusExhausted) t)
          (tokens w))
       (tick (tick w))).
Proof.
  intros Hk Hf Hf' Ht Hs Hdeny. mrun.
  rewrite (proj2 (String.eqb_neq _ _) Hk), Hf.
  cbn [tokens tick]. rewrite Ht. cbv beta iota. rewrite Hs.
  change (negb (TokenStatusEnabled =? TokenStatusEnabled)) with false.
  cbv beta iota. cbn [timestamp tick faults clock].
  destruct (expired t (timestamp w)) eqn:He.
  - cbv beta iota. cbn [timestamp tick faults clock].
    rewrite Hf'. reflexivity.
  - destruct Hdeny as [? | Hx]; [done|]. rewrite Hx.
    cbv beta iota. cbn [timestamp tick faults clock].
    rewrite Hf'. reflexivity.
Qed.

(** X14: once a denial has recorded the new status, later validations of
    the same key stop at the status test: a second call returns the
    status error, sends no update and leaves the table as the first call
    left it. *)
Theorem Validate_twice (w : World) (key : string) (t : Token) :
  key <> "" ->
  faults w (clock w) = false ->
  faults w (S (clock w)) = false ->
  faults w (S (S (clock w))) = false ->
  first_token_by_key key (tokens w) = Some t ->
  Status t = TokenStatusEnabled ->
  expired t (timestamp w) = true \/ exhausted t = true ->
  exists e w1 w2,
    ValidateUserToken key w = (Val (None, Some e), w1)
    /\ (e = ErrExpired \/ e = ErrExhausted)
    /\ ValidateUserToken key w1 = (Val (None, Some ErrStatus), w2)
    /\ tokens w2 = tokens w1
    /\ clock w2 = S (clock w1).
Proof.
  intros Hk Hf0 Hf1 Hf2 Ht Hs Hdeny.
  eexists _, _, _.
  split; [by apply (Validate_denial_persisted w key t)|].
  split; [destruct (expired t (timestamp w)); tauto|].
  split.
  { apply (Validate_not_enabled _ key
             (mark (if expired t (timestamp w) then TokenStatusExpired
                    else TokenStatusExhausted) t t)).
    - done.
    - exact Hf2.
    - cbn [tokens set_tokens]. rewrite first_token_by_key_update by done.
      rewrite Ht. cbn. by rewrite Z.eqb_refl.
    - cbn. by destruct (expired t (timestamp w)). }
  split; reflexivity.
Qed.

Lemma Validate_twice_witness :
  exists e w1 w2,
    ValidateUserToken "sk-demo" (demo_world (demo_token 0 false) no_faults)
    = (Val (None, Some e), w1)
    /\ (e = ErrExpired \/ e = ErrExhausted)
    /\ ValidateUserToken "sk-demo" w1 = (Val (None, Some ErrStatus), w2)
    /\ tokens w2 = tokens w1
    /\ clock w2 = S (clock w1).
Proof.
  apply (Validate_twice (demo_world (demo_token 0 false) no_faults)
           "sk-demo" (demo_token 0 false));
    first [discriminate | reflexivity | right; reflexivity].
Defined.

(** * The accessors by id *)

Lemma first_token_sound (id : Z) (rows : list Token) (t : Token) :
  first_token id rows = Some t -> Id t = id /\ t ∈ rows.
Proof.
  induction rows as [|r rows IH]; simpl; [done|].
  destruct (Id r =? id) eqn:E.
  - intros [= ->]. apply Z.eqb_eq in E. split; [done|]. by left.
  - intros H. destruct (IH H) as [? ?]. split; [done|]. by right.
Qed.

Lemma first_token_of_sound (id userId : Z) (rows : list Token) (t : Token) :
  first_token_of id userId rows = Some t ->
  Id t = id /\ UserId t = userId /\ t ∈ rows.
Proof.
  induction rows as [|r rows IH]; simpl; [done|].
  destruct ((Id r =? id) && (UserId r =? userId)) eqn:E.
  - intros [= ->]. apply andb_true_iff in E as [E1 E2].
    apply Z.eqb_eq in E1, E2. split; [done|]. split; [done|]. by left.
  - intros H. destruct (IH H) as (? & ? & ?).
    split; [done|]. split; [done|]. by right.
Qed.

Lemma first_token_of_foreign (id userId : Z) (rows : list Token) :
  (forall t, t ∈ rows -> Id t = id -> UserId t <> userId) ->
  first_token_of id userId rows = None.
Proof.
  induction rows as [|r rows IH]; simpl; [done|]. intros H.
  destruct ((Id r =? id) && (UserId r =? userId)) eqn:E.
  - apply andb_true_iff in E as [E1 E2]. apply Z.eqb_eq in E1, E2.
    exfalso. apply (H r); [by left | done | done].
  - apply IH. intros t Ht. apply H. by right.
Qed.

Lemma first_token_deleted (id : Z) (rows : list Token) :
  first_token id (List.filter (fun row => negb (Id row =? id)) rows) = None.
Proof.
  induction rows as [|r rows IH]; simpl; [done|].
  destruct (Id r =? id) eqn:E; simpl; [exact IH|]. by rewrite E.
Qed.

Lemma first_token_delete_other (id id' : Z) (rows : list Token) :
  id' <> id ->
  first_token id' (List.filter (fun row => negb (Id row =? id)) rows)
  = first_token id' rows.
Proof.
  intros Hne. induction rows as [|r rows IH]; simpl; [done|].
  destruct (Id r =? id) eqn:E; simpl.
  - apply Z.eqb_eq in E.
    destruct (Id r =? id') eqn:E'; [apply Z.eqb_eq in E'; congruence|].
    exact IH.
  - destruct (Id r =? id'); [done | exact IH].
Qed.

(** X15: GetTokenById never writes; the pointer it returns is nil exactly
    when id is 0; and when it returns no error the token is a row of the
    table whose id is the one asked for. *)
Theorem GetTokenById_sound (w : World) (id : Z) :
  exists p e w',
    GetTokenById id w = (Val (p, e), w')
    /\ tokens w' = tokens w
    /\ users w' = users w
    /\ (p = None <-> id = 0)
    /\ (e = None -> exists t, p = Some t /\ Id t = id /\ t ∈ tokens w).
Proof.
  unfold GetTokenById. destruct (id =? 0) eqn:E.
  - apply Z.eqb_eq in E. eexists _, _, _. split; [reflexivity|].
    split; [done|]. split; [done|]. split; [done|]. done.
  - apply Z.eqb_neq in E. unfold bind, db_stmt, get, ret.
    destruct (faults w (clock w)).
    + eexists _, _, _. split; [reflexivity|].
      split; [done|]. split; [done|]. split; [split; [done|]; done|]. done.
    + cbn [tokens tick].
      destruct (first_token id (tokens w)) as [t|] eqn:Ht.
      * destruct (first_token_sound _ _ _ Ht) as [? ?].
        eexists _, _, _. split; [reflexivity|].
        split; [done|]. split; [done|]. split; [split; [done|]; done|].
        intros _. by exists t.
      * eexists _, _, _. split; [reflexivity|].
        split; [done|]. split; [done|]. split; [split; [done|]; done|]. done.
Qed.

(** X16: GetTokenByIds never writes; with id or userId 0 it sends no
    statement and returns its own error; when it returns no error the
    token is a row with that id owned by that user; and when every row
    with that id belongs to someone else it returns an error. *)
Theorem GetTokenByIds_owner_only (w : World) (id userId : Z) :
  exists p e w',
    GetTokenByIds id userId w = (Val (p, e), w')
    /\ tokens w' = tokens w
    /\ users w' = users w
    /\ (id = 0 \/ userId = 0 ->
        p = None /\ e = Some ErrIdOrUserIdEmpty /\ w' = w)
    /\ (e = None ->
        exists t,
          p = Some t /\ Id t = id /\ UserId t = userId /\ t ∈ tokens w)
    /\ ((forall t, t ∈ tokens w -> Id t = id -> UserId t <> userId) ->
        e <> None).
Proof.
  unfold GetTokenByIds. destruct ((id =? 0) || (userId =? 0)) eqn:E.
  - eexists _, _, _. split; [reflexivity|]. do 2 (split; [done|]).
    split; [done|]. split; done.
  - apply orb_false_iff in E as [E1 E2]. apply Z.eqb_neq in E1, E2.
    unfold bind, db_stmt, get, ret. destruct (faults w (clock w)).
    + eexists _, _, _. split; [reflexivity|]. do 2 (split; [done|]).
      split; [intros [? | ?]; done|]. split; done.
    + cbn [tokens tick].
      destruct (first_token_of id userId (tokens w)) as [t|] eqn:Ht.
      * destruct (first_token_of_sound _ _ _ _ Ht) as (? & ? & ?).
        eexists _, _, _. split; [reflexivity|]. do 2 (split; [done|]).
        split; [intros [? | ?]; done|]. split; [intros _; by exists t|].
        intros Hforeign. rewrite first_token_of_foreign in Ht; done.
      * eexists _, _, _. split; [reflexivity|]. do 2 (split; [done|]).
        split; [intros [? | ?]; done|]. split; done.
Qed.

(** X17: DeleteTokenById deletes nothing that is not the caller's: when
    every row with that id belongs to another user, it returns an error
    and the table is as it was, whatever the store does. *)
Theorem DeleteTokenById_refuses_foreign (w : World) (id userId : Z) :
  (forall t, t ∈ tokens w -> Id t = id -> UserId t <> userId) ->
  exists e w',
    DeleteTokenById id userId w = (Val (Some e), w')
    /\ tokens w' = tokens w
    /\ users w' = users w.
Proof.
  intros Hforeign. unfold DeleteTokenById.
  destruct ((id =? 0) || (userId =? 0)); [by eexists _, _|].
  unfold bind, db_stmt, get, ret. destruct (faults w (clock w));
    [by eexists _, _|].
  cbn [tokens tick]. rewrite (first_token_of_foreign _ _ _ Hforeign).
  by eexists _, _.
Qed.

Lemma DeleteTokenById_refuses_foreign_witness :
  exists e w',
    DeleteTokenById 7 4 (demo_world (demo_token 400 false) no_faults)
    = (Val (Some e), w')
    /\ tokens w' = [demo_token 400 false]
    /\ users w' = [demo_user].
Proof.
  apply (DeleteTokenById_refuses_foreign
           (demo_world (demo_token 400 false) no_faults) 7 4).
  intros t Ht Hid. apply list_elem_of_singleton in Ht. subst t.
  simpl. lia.
Defined.

(** X18: when both statements succeed and the user owns a row with that
    id, DeleteTokenById returns no error and removes exactly the rows
    with that id: a lookup of the id then finds no row, every other
    credential is found as before, and the users table is as it was. *)
Theorem DeleteTokenById_removes (w : World) (id userId : Z) (t : Token) :
  id <> 0 -> userId <> 0 ->
  faults w (clock w) = false ->
  faults w (S (clock w)) = false ->
  first_token_of id userId (tokens w) = Some t ->
  exists w',
    DeleteTokenById id userId w = (Val None, w')
    /\ first_token id (tokens w') = None
    /\ (forall id', id' <> id ->
          first_token id' (tokens w') = first_token id' (tokens w))
    /\ users w' = users w
    /\ (faults w' (clock w') = false ->
        GetTokenById id w'
        = (Val (Some (with_Id id zeroToken), Some ErrRecordNotFound),
           tick w')).
Proof.
  intros Hid Huid Hf0 Hf1 Ht.
  destruct (first_token_of_sound _ _ _ _ Ht) as (Hidt & _ & _).
  unfold DeleteTokenById, Delete.
  rewrite (proj2 (Z.eqb_neq _ _) Hid), (proj2 (Z.eqb_neq _ _) Huid).
  cbn [orb]. unfold bind, db_stmt, get, ret, modify. rewrite Hf0.
  cbn [tokens tick]. rewrite Ht, Hidt, (proj2 (Z.eqb_neq _ _) Hid).
  cbn [faults clock tick]. rewrite Hf1. cbn [fmap option_fmap option_map].
  eexists. split; [reflexivity|]. cbn [tokens set_tokens tick users].
  split; [apply first_token_deleted|].
  split; [intros id' Hne; by apply first_token_delete_other|].
  split; [done|].
  intros Hf. apply GetTokenById_absent; [done | exact Hf |].
  apply first_token_deleted.
Qed.

Lemma DeleteTokenById_removes_witness :
  exists w',
    DeleteTokenById 7 3 (demo_world (demo_token 400 false) no_faults)
    = (Val None, w')
    /\ first_token 7 (tokens w') = None
    /\ (forall id', id' <> 7 ->
          first_token id' (tokens w')
          = first_token id' [demo_token 400 false])
    /\ users w' = [demo_user]
    /\ (faults w' (clock w') = false ->
        GetTokenById 7 w'
        = (Val (Some (with_Id 7 zeroToken), Some ErrRecordNotFound),
           tick w')).
Proof.
  apply (DeleteTokenById_removes
           (demo_world (demo_token 400 false) no_faults) 7 3
           (demo_token 400 false)); first [lia | reflexivity].
Defined.

(** * Further properties of the aggregator *)

Lemma wrap32_add_l (a b : Z) : wrap 32 (wrap 32 a + b) = wrap 32 (a + b).
Proof.
  unfold wrap. change (2 ^ (32 - 1)) with 2147483648.
  change (2 ^ 32) with 4294967296.
  replace ((a + 2147483648) `mod` 4294967296 - 2147483648 + b + 2147483648)
    with ((a + 2147483648) `mod` 4294967296 + b) by lia.
  rewrite Zplus_mod_idemp_l. f_equal. f_equal. lia.
Qed.

Lemma wrap32_add_r (a b : Z) : wrap 32 (a + wrap 32 b) = wrap 32 (a + b).
Proof. rewrite (Z.add_comm a), wrap32_add_l. f_equal. lia. Qed.

Lemma wrap32_small (x : Z) : is_int32 x -> wrap 32 x = x.
Proof.
  unfold is_int32, wrap. change (2 ^ (32 - 1)) with 2147483648.
  change (2 ^ 32) with 4294967296. change (2 ^ 31) with 2147483648.
  intros H. rewrite Z.mod_small; lia.
Qed.

Lemma wrap32_is_int32 (x : Z) : is_int32 (wrap 32 x).
Proof.
  unfold is_int32, wrap. change (2 ^ (32 - 1)) with 2147483648.
  change (2 ^ 32) with 4294967296. change (2 ^ 31) with 2147483648.
  pose proof (Z.mod_pos_bound (x + 2147483648) 4294967296). lia.
Qed.

Lemma consume_same_credential (evs : list Token) (m : gmap Z cell)
    (id v : Z) :
  m !! id = Some (PInt32 v) ->
  is_int32 v ->
  Forall (fun ev => Id ev = id) evs ->
  consume evs m
  = (Val tt, <[id := PInt32 (wrap 32 (v + sum_deltas evs))]> m).
Proof.
  revert m v. induction evs as [|ev evs IH]; intros m v Hm Hv Hall.
  - cbn. rewrite Z.add_0_r, wrap32_small by done. by rewrite insert_id.
  - apply Forall_cons in Hall as [Hid Hall]. cbn [consume].
    rewrite (record_event_existing ev m v) by (by rewrite Hid).
    rewrite Hid. unfold add_int32, to_int32. rewrite wrap32_add_r.
    rewrite (IH _ (wrap 32 (v + UsedQuota ev)));
      [|by rewrite lookup_insert_eq | apply wrap32_is_int32 | done].
    rewrite insert_insert_eq, wrap32_add_l. cbn [sum_deltas foldr].
    do 4 f_equal. fold (sum_deltas evs). lia.
Qed.

(** X19: for a credential that has an int32 cell, the consumer loop adds
    the deltas of its events to that cell: after any run of events for
    that credential the cell holds the old value plus the sum of the
    deltas, reduced to 32 bits; as long as that sum stays within int32
    the pending delta is the exact sum. *)
Theorem consume_accumulates (evs : list Token) (m : gmap Z cell) (id v : Z) :
  m !! id = Some (PInt32 v) ->
  is_int32 v ->
  Forall (fun ev => Id ev = id) evs ->
  consume evs m
  = (Val tt, <[id := PInt32 (wrap 32 (v + sum_deltas evs))]> m)
  /\ (is_int32 (v + sum_deltas evs) ->
      pending id (consume evs m).2 = v + sum_deltas evs).
Proof.
  intros Hm Hv Hall.
  rewrite (consume_same_credential evs m id v Hm Hv Hall).
  split; [done|]. intros Hsum. unfold pending. cbn [snd].
  by rewrite lookup_insert_eq, wrap32_small.
Qed.

Lemma consume_accumulates_witness :
  consume [pending_token 7 5; pending_token 7 (- 2)] {[7 := PInt32 3]}
  = (Val tt,
     <[7 := PInt32 (wrap 32
                      (3 + sum_deltas [pending_token 7 5;
                                       pending_token 7 (- 2)]))]>
       {[7 := PInt32 3]})
  /\ (is_int32 (3 + sum_deltas [pending_token 7 5; pending_token 7 (- 2)]) ->
      pending 7
        (consume [pending_token 7 5; pending_token 7 (- 2)]
           {[7 := PInt32 3]}).2
      = 3 + sum_deltas [pending_token 7 5; pending_token 7 (- 2)]).
Proof.
  apply (consume_accumulates [pending_token 7 5; pending_token 7 (- 2)]
           {[7 := PInt32 3]} 7 3).
  - apply lookup_singleton_eq.
  - unfold is_int32. simpl. lia.
  - repeat constructor.
Defined.

Lemma sum_deltas_perm (evs evs' : list Token) :
  evs ≡ₚ evs' -> sum_deltas evs = sum_deltas evs'.
Proof.
  induction 1 as [|x l l' _ IH|x y l|l l' l'' _ IH1 _ IH2];
    unfold sum_deltas in *; cbn [foldr] in *; lia.
Qed.

(** X20: the events of one credential commute: for a credential that has
    an int32 cell, the consumer loop leaves the same map whatever the
    order in which the channel delivers the same events. *)
Theorem consume_order_independent (evs evs' : list Token) (m : gmap Z cell)
    (id v : Z) :
  m !! id = Some (PInt32 v) ->
  is_int32 v ->
  Forall (fun ev => Id ev = id) evs ->
  evs ≡ₚ evs' ->
  consume evs m = consume evs' m.
Proof.
  intros Hm Hv Hall Hperm.
  rewrite (consume_same_credential evs m id v Hm Hv Hall).
  rewrite (consume_same_credential evs' m id v Hm Hv)
    by (by rewrite <- Hperm).
  by rewrite (sum_deltas_perm _ _ Hperm).
Qed.

Lemma consume_order_independent_witness :
  consume [pending_token 7 5; pending_token 7 (- 2)] {[7 := PInt32 3]}
  = consume [pending_token 7 (- 2); pending_token 7 5] {[7 := PInt32 3]}.
Proof.
  apply (consume_order_independent _ _ {[7 := PInt32 3]} 7 3).
  - apply lookup_singleton_eq.
  - unfold is_int32. simpl. lia.
  - repeat constructor.
  - apply perm_swap.
Defined.

Lemma snapshot_int32 (entries : list (Z * cell)) :
  Forall (fun kc => exists v, kc.2 = PInt32 v) entries ->
  snapshot entries
  = Val ((fun kc => pending_token kc.1
                      (match kc.2 with PInt32 v | PInt v => v end))
           <$> entries).
Proof.
  induction entries as [|[k c] rest IH]; intros Hall; [done|].
  apply Forall_cons in Hall as [[v Hv] Hall]. cbn in Hv. subst c.
  cbn [snapshot assert_int32]. by rewrite (IH Hall).
Qed.

Lemma delete_all_keeps_none (ts : list Token) (m : gmap Z cell) (k : Z) :
  m !! k = None -> delete_all ts m !! k = None.
Proof.
  revert m. induction ts as [|t ts IH]; intros m H; [done|].
  unfold delete_all. cbn [foldl]. fold (delete_all ts).
  apply IH. apply lookup_delete_None. by right.
Qed.

Lemma delete_all_deletes (ts : list Token) (m : gmap Z cell) (t : Token) :
  t ∈ ts -> delete_all ts m !! Id t = None.
Proof.
  revert m. induction ts as [|t' ts IH]; intros m Hin.
  - by apply elem_of_nil in Hin.
  - unfold delete_all. cbn [foldl]. fold (delete_all ts).
    apply elem_of_cons in Hin as [-> | Hin].
    + apply delete_all_keeps_none, lookup_delete_eq.
    + by apply IH.
Qed.

(** X21: on a map whose cells are all int32 cells, the drain returns one
    entry per cell, carrying the id and the value of the cell, and leaves
    the map empty, so that nothing it returned can be returned by a later
    drain: draining again yields the empty snapshot. *)
Theorem drain_takes_everything_once (m : gmap Z cell) :
  map_Forall (fun _ c => exists v, c = PInt32 v) m ->
  exists ts,
    drain m = (Val ts, ∅)
    /\ (forall k v, pending_token k v ∈ ts <-> m !! k = Some (PInt32 v))
    /\ length ts = size m
    /\ drain (drain m).2 = (Val [], ∅).
Proof.
  intros Hall.
  set (g := fun kc : Z * cell =>
              pending_token kc.1 (match kc.2 with PInt32 v | PInt v => v end)).
  assert (snapshot (map_to_list m) = Val (g <$> map_to_list m)) as Hsnap.
  { apply snapshot_int32. apply Forall_forall. intros [k c] Hin.
    apply elem_of_map_to_list in Hin. exact (Hall k c Hin). }
  assert (delete_all (g <$> map_to_list m) m = ∅) as Hempty.
  { apply map_empty. intros k. destruct (m !! k) as [c|] eqn:Hk.
    - change k with (Id (g (k, c))). apply delete_all_deletes.
      apply list_elem_of_fmap_2. by apply elem_of_map_to_list.
    - by apply delete_all_keeps_none. }
  assert (drain m = (Val (g <$> map_to_list m), ∅)) as Hdrain.
  { unfold drain. by rewrite Hsnap, Hempty. }
  exists (g <$> map_to_list m). split; [exact Hdrain|]. split; [|split].
  - intros k v. rewrite list_elem_of_fmap. split.
    + intros ([k' c'] & Heq & Hin). apply elem_of_map_to_list in Hin.
      destruct (Hall k' c' Hin) as [v' ->].
      unfold g, pending_token in Heq. cbn in Heq.
      injection Heq as -> ->. exact Hin.
    + intros Hk. exists (k, PInt32 v). split; [done|].
      by apply elem_of_map_to_list.
  - by rewrite length_fmap, length_map_to_list.
  - rewrite Hdrain. cbn [snd]. unfold drain.
    by rewrite map_to_list_empty.
Qed.

Lemma drain_takes_everything_once_witness :
  exists ts,
    drain {[7 := PInt32 3]} = (Val ts, ∅)
    /\ (forall k v,
          pending_token k v ∈ ts
          <-> ({[7 := PInt32 3]} : gmap Z cell) !! k = Some (PInt32 v))
    /\ length ts = size ({[7 := PInt32 3]} : gmap Z cell)
    /\ drain (drain {[7 := PInt32 3]}).2 = (Val [], ∅).
Proof.
  apply (drain_takes_everything_once {[7 := PInt32 3]}).
  intros k c Hk. apply lookup_singleton_Some in Hk as [_ <-]. by exists 3.
Defined.

(** * Invariants of the interleaving machine *)

Lemma run_invariant (P : Batch -> Prop) :
  (forall th s s', P s -> step th s = Some (Val s') -> P s') ->
  forall sched s s', P s -> run sched s = Some (Val s') -> P s'.
Proof.
  intros Hstep sched. induction sched as [|th sched IH]; intros s s' HP.
  - cbn. by intros [= <-].
  - cbn [run]. destruct (step th s) as [[s1|p]|] eqn:E; [|done|done].
    apply IH. by apply (Hstep th s).
Qed.

Lemma unfinished_app (a b : list worker_pc) :
  unfinished (a ++ b) = unfinished a + unfinished b.
Proof.
  induction a as [|[t|t|] a IH]; cbn [app unfinished]; lia.
Qed.

Lemma unfinished_nonneg (ws : list worker_pc) : 0 <= unfinished ws.
Proof. induction ws as [|[t|t|] ws IH]; cbn [unfinished]; lia. Qed.

Lemma unfinished_insert (ws : list worker_pc) (n : nat)
    (old new : worker_pc) :
  ws !! n = Some old ->
  unfinished (<[n := new]> ws)
  = unfinished ws - unfinished [old] + unfinished [new].
Proof.
  revert n. induction ws as [|pc ws IH]; intros n H; [done|].
  destruct n as [|n].
  - cbn in H. injection H as ->.
    destruct old, new; simpl; lia.
  - cbn in H. specialize (IH n H).
    change (<[S n := new]> (pc :: ws)) with (pc :: <[n := new]> ws).
    destruct pc, old, new; simpl in *; lia.
Qed.

(** X22: under every schedule and every store, the WaitGroup counter of
    batchConsumeTokenQuota is the number of workers that have been
    started and have not reached their [wg.Done()]; it is never
    negative. *)
Theorem wg_counts_unfinished (tokens : list Token) (w : World)
    (sched : list thread) (s : Batch) :
  run sched (batch_init tokens w) = Some (Val s) ->
  b_wg s = unfinished (b_workers s) /\ 0 <= b_wg s.
Proof.
  intros Hrun.
  assert (b_wg s = unfinished (b_workers s)) as H.
  { revert Hrun.
    apply (run_invariant (fun s => b_wg s = unfinished (b_workers s)));
      [|done].
    clear. intros th s s' HP Hstep. destruct th as [| |n]; cbn [step] in Hstep.
    - unfold step_main in Hstep.
      destruct (b_main s) as [i|i [|t rest]| | |fail];
        try destruct (b_completeClosed s);
        simplify_eq; cbn; try done;
        rewrite unfinished_app; cbn; lia.
    - unfold step_collector in Hstep.
      destruct (b_collector s); [|done].
      destruct (b_failChan s); [destruct (b_failClosed s)|];
        simplify_eq; by cbn.
    - unfold step_worker in Hstep.
      destruct (b_workers s !! n) as [[t|t|]|] eqn:Hn; [| |done|done].
      + destruct (persist_one t (b_world s)) as [[[e|]|p] w'];
          simplify_eq; cbn;
          rewrite (unfinished_insert _ _ _ _ Hn); cbn; lia.
      + destruct (b_failClosed s); [done|].
        destruct (length (b_failChan s) <? failChan_cap)%nat; [|done].
        simplify_eq. cbn.
        rewrite (unfinished_insert _ _ _ _ Hn). cbn. lia. }
  split; [exact H|]. rewrite H. apply unfinished_nonneg.
Qed.

Lemma wg_counts_unfinished_witness :
  exists s,
    run worker_runs_first
      (batch_init one_delta (demo_world (demo_token 400 false) all_faults))
    = Some (Val s)
    /\ b_wg s = unfinished (b_workers s)
    /\ 0 <= b_wg s.
Proof.
  eexists. split; [vm_compute; reflexivity|].
  apply (wg_counts_unfinished one_delta
           (demo_world (demo_token 400 false) all_faults)
           worker_runs_first).
  vm_compute. reflexivity.
Defined.

Lemma inflight_app (a b : list worker_pc) :
  inflight (a ++ b) = inflight a ++ inflight b.
Proof.
  induction a as [|[t|t|] a IH]; cbn [app inflight]; by rewrite ?IH.
Qed.

Lemma inflight_insert (ws : list worker_pc) (n : nat) (old : worker_pc) :
  ws !! n = Some old ->
  exists a b,
    inflight ws = a ++ inflight [old] ++ b
    /\ forall new, inflight (<[n := new]> ws) = a ++ inflight [new] ++ b.
Proof.
  intros H.
  exists (inflight (take n ws)), (inflight (drop (S n) ws)).
  assert (forall pc rest,
             inflight (pc :: rest) = inflight [pc] ++ inflight rest) as Hcons.
  { intros pc rest. by destruct pc. }
  split.
  - rewrite <- (take_drop_middle ws n old H) at 1.
    by rewrite inflight_app, Hcons.
  - intros new. rewrite insert_take_drop by (by eapply lookup_lt_Some).
    by rewrite inflight_app, Hcons.
Qed.

Lemma accounted_step (th : thread) (s s' : Batch) :
  step th s = Some (Val s') ->
  b_tokens s' = b_tokens s /\ accounted s' ⊆+ accounted s.
Proof.
  intros Hstep. unfold accounted.
  destruct th as [| |n]; cbn [step] in Hstep.
  - unfold step_main in Hstep.
    destruct (b_main s) as [i|i [|t rest]| | |fail] eqn:Hm.
    + destruct (i <? length (b_tokens s))%nat eqn:E; simplify_eq;
        cbn [b_tokens b_fail b_failChan b_workers b_main unspawned];
        (split; [done|]).
      * by rewrite <- drop_drop, take_drop.
      * apply Nat.ltb_ge in E. by rewrite drop_ge.
    + simplify_eq. by cbn.
    + simplify_eq. cbn. split; [done|].
      rewrite inflight_app. cbn. by rewrite <- !app_assoc.
    + simplify_eq. by cbn.
    + destruct (b_completeClosed s); simplify_eq. by cbn.
    + done.
  - unfold step_collector in Hstep.
    destruct (b_collector s); [|done].
    destruct (b_failChan s) as [|t rest]; [destruct (b_failClosed s)|];
      simplify_eq; cbn; (split; [done|]); [done|].
    by rewrite <- app_assoc.
  - unfold step_worker in Hstep.
    destruct (b_workers s !! n) as [[t|t|]|] eqn:Hn; [| |done|done].
    + destruct (inflight_insert _ _ _ Hn) as (a & b & Hold & Hnew).
      destruct (persist_one t (b_world s)) as [[[e|]|p] w'];
        simplify_eq; cbn; (split; [done|]);
        rewrite Hold, Hnew; cbn; [done|].
      apply submseteq_app; [done|]. apply submseteq_app; [done|].
      apply submseteq_app; [|done]. apply submseteq_app; [done|].
      by apply submseteq_cons.
    + destruct (b_failClosed s); [done|].
      destruct (length (b_failChan s) <? failChan_cap)%nat; [|done].
      destruct (inflight_insert _ _ _ Hn) as (a & b & Hold & Hnew).
      simplify_eq. cbn. split; [done|].
      rewrite Hold, Hnew. cbn. apply Permutation_submseteq.
      rewrite <- !app_assoc. cbn.
      apply Permutation_app_head, Permutation_app_head.
      by rewrite (Permutation_middle a).
Qed.

Lemma settled_step (th : thread) (s s' : Batch) :
  settled s -> step th s = Some (Val s') -> settled s'.
Proof.
  unfold settled. intros [Hm Hc] Hstep.
  destruct th as [| |n]; cbn [step] in Hstep.
  - unfold step_main in Hstep.
    destruct (b_main s) as [i|i [|t rest]| | |fail];
      try destruct (b_completeClosed s) eqn:E;
      try destruct (i <? length (b_tokens s))%nat;
      simplify_eq; cbn; try done.
    split; [|done]. split; [done|]. by apply Hc.
  - unfold step_collector in Hstep.
    destruct (b_collector s) eqn:Ec; [|done].
    destruct (b_main s);
      destruct (b_failChan s); try destruct (b_failClosed s);
      simplify_eq; cbn; try done.
    all: try (split; [done|]; intros Hcl; specialize (Hc Hcl); done).
    all: by destruct Hm.
  - unfold step_worker in Hstep.
    destruct (b_workers s !! n) as [[t|t|]|]; [| |done|done].
    + destruct (persist_one t (b_world s)) as [[[e|]|p] w'];
        simplify_eq; by cbn.
    + destruct (b_failClosed s); [done|].
      destruct (length (b_failChan s) <? failChan_cap)%nat; [|done].
      simplify_eq. by cbn.
Qed.

(** X23: under every schedule and every store, the entries
    batchConsumeTokenQuota knows of (gathered as failed, in failChan,
    held by a worker, or not yet handed to a worker) are entries of the
    batch it was given, none more often than it occurs there; so the list
    it returns holds only entries of the batch and no entry twice unless
    the batch does. *)
Theorem batch_reports_only_its_entries (tokens : list Token) (w : World)
    (sched : list thread) (s : Batch) :
  run sched (batch_init tokens w) = Some (Val s) ->
  accounted s ⊆+ tokens
  /\ (forall fail, b_main s = MainReturned fail -> fail ⊆+ tokens).
Proof.
  intros Hrun.
  assert (b_tokens s = tokens /\ accounted s ⊆+ tokens) as [Htok Hacc].
  { revert Hrun.
    apply (run_invariant
             (fun s => b_tokens s = tokens /\ accounted s ⊆+ tokens)).
    - intros th s1 s2 [Ht Ha] Hstep.
      destruct (accounted_step th s1 s2 Hstep) as [Ht' Ha'].
      split; [congruence|]. by etrans.
    - split; [done|]. unfold accounted. cbn. by rewrite drop_0. }
  assert (settled s) as [Hm _].
  { revert Hrun. apply (run_invariant settled); [apply settled_step|].
    by split. }
  split; [exact Hacc|]. intros fail Hret. rewrite Hret in Hm.
  destruct Hm as [-> _]. etrans; [|exact Hacc].
  unfold accounted. apply submseteq_inserts_r. done.
Qed.

Lemma batch_reports_only_its_entries_witness :
  exists s,
    run worker_runs_first
      (batch_init one_delta (demo_world (demo_token 400 false) all_faults))
    = Some (Val s)
    /\ accounted s ⊆+ one_delta
    /\ (forall fail, b_main s = MainReturned fail -> fail ⊆+ one_delta).
Proof.
  eexists. split; [vm_compute; reflexivity|].
  apply (batch_reports_only_its_entries one_delta
           (demo_world (demo_token 400 false) all_faults)
           worker_runs_first).
  vm_compute. reflexivity.
Defined.

Lemma drained_step (th : thread) (s s' : Batch) :
  drained s -> step th s = Some (Val s') -> drained s'.
Proof.
  unfold drained. intros (Hc & Hm) Hstep.
  destruct th as [| |n]; cbn [step] in Hstep.
  - unfold step_main in Hstep.
    destruct (b_main s) as [i|i [|t rest]| | |fail];
      try destruct (b_completeClosed s) eqn:E;
      try destruct (i <? length (b_tokens s))%nat;
      simplify_eq; cbn; try done.
    all: split; [|done]; intros Hx; destruct (Hc Hx) as [? ?]; done.
  - unfold step_collector in Hstep.
    destruct (b_collector s); [|done].
    destruct (b_failChan s) eqn:Hch; [destruct (b_failClosed s) eqn:Hcl|];
      simplify_eq; cbn.
    + split; [done|]. by destruct (b_main s).
    + split; [|by destruct (b_main s)].
      intros Hx. destruct (Hc Hx) as [? ?]. congruence.
  - unfold step_worker in Hstep.
    destruct (b_workers s !! n) as [[t|t|]|]; [| |done|done].
    + destruct (persist_one t (b_world s)) as [[[e|]|p] w'];
        simplify_eq; by cbn.
    + destruct (b_failClosed s) eqn:Hcl; [done|].
      destruct (length (b_failChan s) <? failChan_cap)%nat; [|done].
      simplify_eq. cbn. split; [|by destruct (b_main s)].
      intros Hx. destruct (Hc Hx) as [? ?]. congruence.
Qed.

(** X24: batchConsumeTokenQuota returns only after failChan is closed and
    emptied: under every schedule and every store, when it has returned,
    the list it returned is all the collector gathered, failChan is
    closed and holds nothing, so no entry a worker managed to send is
    missing from the result. *)
Theorem batch_returns_all_that_was_sent (tokens : list Token) (w : World)
    (sched : list thread) (s : Batch) (fail : list Token) :
  run sched (batch_init tokens w) = Some (Val s) ->
  b_main s = MainReturned fail ->
  fail = b_fail s
  /\ b_failChan s = []
  /\ b_failClosed s = true
  /\ b_collector s = CollectorDone.
Proof.
  intros Hrun Hret.
  assert (settled s) as [Hm _].
  { revert Hrun. apply (run_invariant settled); [apply settled_step|].
    by split. }
  assert (drained s) as [Hc Hd].
  { revert Hrun. apply (run_invariant drained); [apply drained_step|].
    by split. }
  rewrite Hret in Hm, Hd. destruct Hm as [-> Hcoll].
  destruct (Hc Hd) as [? ?]. done.
Qed.

Lemma batch_returns_all_that_was_sent_witness :
  exists s,
    run worker_runs_first
      (batch_init one_delta (demo_world (demo_token 400 false) all_faults))
    = Some (Val s)
    /\ one_delta = b_fail s
    /\ b_failChan s = []
    /\ b_failClosed s = true
    /\ b_collector s = CollectorDone.
Proof.
  eexists. split; [vm_compute; reflexivity|].
  apply (batch_returns_all_that_was_sent one_delta
           (demo_world (demo_token 400 false) all_faults)
           worker_runs_first).
  - vm_compute. reflexivity.
  - reflexivity.
Defined.

Lemma idle_step (w : World) (th : thread) (s s' : Batch) :
  idle w s -> step th s = Some (Val s') -> idle w s'.
Proof.
  unfold idle. intros (Hw & Ht & Hws & Hf & Hch & Hm) Hstep.
  destruct th as [| |n]; cbn [step] in Hstep.
  - unfold step_main in Hstep. rewrite Ht, Hf in Hstep.
    destruct (b_main s) as [i|i [|t rest]| | |fail];
      try destruct (b_completeClosed s);
      simplify_eq; by cbn.
  - unfold step_collector in Hstep. rewrite Hch in Hstep.
    destruct (b_collector s); [|done].
    destruct (b_failClosed s); simplify_eq. cbn.
    repeat (split; [done|]). by destruct (b_main s).
  - unfold step_worker in Hstep. rewrite Hws in Hstep. done.
Qed.

(** X25: on the empty batch batchConsumeTokenQuota does nothing: under
    every schedule it starts no worker, sends no statement, logs nothing
    and can return only the empty list; and the schedule in which main
    and the collector take their turns brings it to that return. *)
Theorem batch_empty (w : World) :
  (forall sched s,
      run sched (batch_init [] w) = Some (Val s) ->
      b_world s = w
      /\ b_workers s = []
      /\ (forall fail, b_main s = MainReturned fail -> fail = []))
  /\ exists s,
      run [Main; Main; Collector; Main] (batch_init [] w) = Some (Val s)
      /\ b_main s = MainReturned [].
Proof.
  split.
  - intros sched s Hrun.
    assert (idle w s) as (Hw & _ & Hws & Hf & _ & _).
    { revert Hrun. apply (run_invariant (idle w)); [apply idle_step|].
      by repeat split. }
    assert (settled s) as [Hm _].
    { revert Hrun. apply (run_invariant settled); [apply settled_step|].
      by split. }
    split; [done|]. split; [done|]. intros fail Hret.
    rewrite Hret in Hm. destruct Hm as [-> _]. done.
  - eexists. split; [reflexivity|]. done.
Qed.

(** * A tick on a store that answers *)

Lemma apply_deltas_perm (ts ts' : list Token) :
  ts ≡ₚ ts' -> forall rows, apply_deltas ts rows = apply_deltas ts' rows.
Proof.
  induction 1 as [|x l l' _ IH|x y l|l l' l'' _ IH1 _ IH2]; intros rows.
  - done.
  - unfold apply_deltas. cbn [foldl]. apply IH.
  - unfold apply_deltas. cbn [foldl]. f_equal.
    apply update_tokens_comm; [done | done |].
    intros t. rewrite !credit_token_credit. f_equal. lia.
  - by rewrite IH1, IH2.
Qed.

Lemma apply_deltas_snoc (ts : list Token) (t : Token) (rows : list Token) :
  apply_deltas (ts ++ [t]) rows
  = update_tokens (Id t) (credit_token (- UsedQuota t)) (apply_deltas ts rows).
Proof. unfold apply_deltas. by rewrite foldl_app. Qed.

Lemma persist_one_answers (w : World) (token : Token) :
  faults w (clock w) = false ->
  min_int < UsedQuota token <= max_int ->
  exists w',
    persist_one token w = (Val None, w')
    /\ faults w' = faults w
    /\ users w' = users w
    /\ tokens w'
       = update_tokens (Id token) (credit_token (- UsedQuota token)) (tokens w).
Proof.
  intros Hf Hq. unfold persist_one.
  destruct (0 <? UsedQuota token) eqn:E1.
  - apply Z.ltb_lt in E1.
    rewrite DecreaseTokenQuota_ok by first [lia | done]. by eexists.
  - apply Z.ltb_ge in E1. destruct (UsedQuota token <? 0) eqn:E2.
    + apply Z.ltb_lt in E2. rewrite (neg_int_exact _ Hq).
      rewrite IncreaseTokenQuota_ok by first [lia | done]. by eexists.
    + apply Z.ltb_ge in E2. exists w.
      replace (UsedQuota token) with 0 by lia. change (- 0) with 0.
      by rewrite update_tokens_credit_0.
Qed.

Lemma persisting_step (input : list Token) (w : World) (th : thread)
    (s s' : Batch) :
  healthy w ->
  Forall (fun t => min_int < UsedQuota t <= max_int) input ->
  (exists finished, persisting input w finished s) ->
  step th s = Some (Val s') ->
  exists finished, persisting input w finished s'.
Proof.
  intros Hh Hrange [fin (Hfl & Hus & Htok & Hfail & Hch & Hns & Hperm & Htab)]
    Hstep.
  unfold persisting.
  destruct th as [| |n]; cbn [step] in Hstep.
  - unfold step_main in Hstep. rewrite Hfail, Htok in Hstep.
    exists fin.
    destruct (b_main s) as [i|i [|t rest]| | |fail] eqn:Hm.
    + destruct (i <? length input)%nat eqn:E; simplify_eq;
        cbn [b_world b_tokens b_fail b_failChan b_workers b_main unspawned];
        repeat (split; [done|]); (split; [|done]);
        cbn [unspawned] in Hperm.
      * rewrite <- drop_drop, take_drop. exact Hperm.
      * apply Nat.ltb_ge in E. rewrite drop_ge in Hperm by done.
        exact Hperm.
    + simplify_eq. cbn. by repeat (split; [done|]).
    + simplify_eq.
      cbn [b_world b_tokens b_fail b_failChan b_workers b_main unspawned].
      repeat (split; [done|]).
      split; [apply Forall_app; split; [done|]; by repeat constructor|].
      split; [|done]. cbn [unspawned] in Hperm.
      rewrite inflight_app. cbn [inflight].
      by rewrite <- !app_assoc.
    + simplify_eq. cbn. by repeat (split; [done|]).
    + destruct (b_completeClosed s); simplify_eq. cbn.
      by repeat (split; [done|]).
    + done.
  - unfold step_collector in Hstep. rewrite Hch in Hstep.
    destruct (b_collector s); [|done].
    destruct (b_failClosed s); simplify_eq. exists fin. cbn.
    by repeat (split; [done|]).
  - unfold step_worker in Hstep.
    destruct (b_workers s !! n) as [[t|t|]|] eqn:Hn; [| |done|done].
    + destruct (inflight_insert _ _ _ Hn) as (a & b & Hold & Hnew).
      assert (t ∈ input) as Hin.
      { rewrite <- Hperm, Hold. cbn [inflight].
        rewrite !elem_of_app, elem_of_cons. tauto. }
      pose proof (proj1 (Forall_forall _ _) Hrange t Hin) as Hq.
      destruct (persist_one_answers (b_world s) t) as (w' & Hrun & ? & ? & Ht');
        [rewrite Hfl; apply Hh | exact Hq |].
      rewrite Hrun in Hstep. simplify_eq. exists (fin ++ [t]).
      cbn [set_worker b_world b_tokens b_fail b_failChan b_workers b_main].
      split; [congruence|]. split; [congruence|].
      do 3 (split; [done|]).
      split; [by apply Forall_insert|].
      split.
      * rewrite Hold in Hperm. rewrite Hnew.
        etrans; [|exact Hperm]. cbn [inflight app].
        rewrite <- !app_assoc. apply Permutation_app_head. cbn [app].
        apply Permutation_middle.
      * by rewrite Ht', Htab, apply_deltas_snoc.
    + exfalso. apply list_elem_of_lookup_2 in Hn.
      exact (proj1 (Forall_forall _ _) Hns _ Hn t eq_refl).
Qed.

(** X26: the interleaving does not matter to what a tick persists. On a
    store that answers and a batch without the least [int], such that
    the counters stay within the 64-bit range of their columns whichever
    part of the batch has been applied, under every schedule that brings
    batchConsumeTokenQuota to its return with all workers done, the
    returned list is empty, the users table is as it was, and the tokens
    table is the old one with every entry of the batch applied once:
    remaining less the delta, used plus the delta. *)
Theorem batch_persists_whatever_the_order (input : list Token) (w : World)
    (sched : list thread) (s : Batch) (fail : list Token) :
  healthy w ->
  Forall (fun t => min_int < UsedQuota t <= max_int) input ->
  (forall part, part ⊆+ input -> tokens_fit (apply_deltas part (tokens w))) ->
  run sched (batch_init input w) = Some (Val s) ->
  b_main s = MainReturned fail ->
  Forall (fun pc => pc = WorkerDone) (b_workers s) ->
  fail = []
  /\ users (b_world s) = users w
  /\ tokens (b_world s) = apply_deltas input (tokens w)
  /\ tokens_fit (tokens (b_world s)).
Proof.
  intros Hh Hrange Hfit Hrun Hret Hdone.
  assert (exists finished, persisting input w finished s)
    as [fin (_ & Hus & _ & Hfail & _ & _ & Hperm & Htab)].
  { revert Hrun.
    apply (run_invariant
             (fun s => exists finished, persisting input w finished s)).
    - intros th s1 s2. by apply persisting_step.
    - exists []. unfold persisting. cbn. rewrite drop_0.
      by repeat (split; [done|]). }
  assert (settled s) as [Hm _].
  { revert Hrun. apply (run_invariant settled); [apply settled_step|].
    by split. }
  rewrite Hret in Hm. destruct Hm as [-> _].
  split; [done|]. split; [done|].
  assert (inflight (b_workers s) = []) as Hnone.
  { clear -Hdone. induction (b_workers s) as [|pc ws IH]; [done|].
    apply Forall_cons in Hdone as [-> Hdone]. cbn. by apply IH. }
  rewrite Hret, Hnone in Hperm. cbn in Hperm. rewrite app_nil_r in Hperm.
  rewrite Htab, (apply_deltas_perm _ _ Hperm).
  split; [done|]. by apply Hfit.
Qed.

Lemma batch_persists_whatever_the_order_witness :
  exists s,
    run worker_persists_first
      (batch_init one_delta (demo_world (demo_token 400 false) no_faults))
    = Some (Val s)
    /\ users (b_world s) = [demo_user]
    /\ tokens (b_world s) = apply_deltas one_delta [demo_token 400 false]
    /\ tokens_fit (tokens (b_world s)).
Proof.
  eexists. split; [vm_compute; reflexivity|].
  apply (batch_persists_whatever_the_order one_delta
           (demo_world (demo_token 400 false) no_faults)
           worker_persists_first _ []).
  - intros n. reflexivity.
  - repeat constructor; unfold min_int, max_int, int_bits; simpl; lia.
  - intros part Hpart.
    assert (part = [] \/ part = one_delta) as [-> | ->].
    { pose proof (submseteq_length _ _ Hpart) as Hlen.
      destruct part as [|a [|b rest]]; [by left | right | simpl in Hlen; lia].
      apply submseteq_length_Permutation in Hpart; [|done].
      symmetry in Hpart. by apply Permutation_singleton_l in Hpart. }
    + fits.
    + fits.
  - vm_compute. reflexivity.
  - reflexivity.
  - repeat constructor.
Defined.

(** * The low-balance notice *)

Lemma sub_int_exact (a b : Z) :
  0 <= b -> b <= a -> a <= max_int -> sub_int a b = a - b.
Proof.
  unfold sub_int, wrap, max_int, int_bits. intros H0 H1 H2.
  change (2 ^ (64 - 1)) with 9223372036854775808 in *.
  change (2 ^ 64) with 18446744073709551616.
  rewrite Z.mod_small; lia.
Qed.

(** X27: a call of PreConsumeTokenQuota that passes both checks starts at
    most one mail, and does so before it sends any debit, hence also when
    a debit then fails at the store: it starts one exactly when the debit
    takes the account from at or above the threshold to below it, or to
    zero or less; the mail is the "exhausted" one exactly in the latter
    case, and the balance it quotes is the one before the debit. *)
Theorem PreConsume_notice (w : World) (id q : Z) (t : Token) (u : User) :
  id <> 0 ->
  faults w (clock w) = false ->
  faults w (S (clock w)) = false ->
  first_token id (tokens w) = Some t ->
  first_user (UserId t) (users w) = Some u ->
  0 <= q ->
  UnlimitedQuota t = true \/ q <= RemainQuota t ->
  q <= Quota u ->
  Quota u <= max_int ->
  exists r w',
    PreConsumeTokenQuota id q w = (Val r, w')
    /\ notices w'
       = notices w
         ++ (if (QuotaRemindThreshold w <=? Quota u)
                && (Quota u - q <? QuotaRemindThreshold w)
                || (Quota u - q <=? 0)
             then [mkNotice (UserId t) (Quota u - q <=? 0) (Quota u)]
             else []).
Proof.
  intros Hid Hf0 Hf1 Ht Hu Hq Hr Ha Hmax. mrun.
  rewrite (proj2 (Z.ltb_ge _ _) Hq), (proj2 (Z.eqb_neq _ _) Hid), Hf0.
  cbn [tokens tick]. rewrite Ht. cbv beta iota.
  assert (negb (UnlimitedQuota t) && (RemainQuota t <? q) = false) as ->.
  { destruct Hr as [-> | Hr]; [done|].
    by rewrite (proj2 (Z.ltb_ge _ _) Hr), andb_false_r. }
  cbn [faults clock tick]. rewrite Hf1. cbn [users tick]. rewrite Hu.
  cbv beta iota. rewrite (proj2 (Z.ltb_ge _ _) Ha).
  rewrite (sub_int_exact _ _ Hq Ha Hmax). cbn [QuotaRemindThreshold tick].
  destruct ((QuotaRemindThreshold w <=? Quota u)
            && (Quota u - q <? QuotaRemindThreshold w)
            || (Quota u - q <=? 0));
    cbv beta iota;
    repeat (match goal with
            | |- context [if ?c then _ else _] => destruct c
            end; cbv beta iota);
    eexists _, _; (split; [reflexivity|]);
    cbn [notices tick set_tokens set_users add_notice];
    by rewrite ?app_nil_r.
Qed.

Lemma PreConsume_notice_witness :
  exists r w',
    PreConsumeTokenQuota 7 600 (demo_world (demo_token 0 true) (fault_at 2))
    = (Val r, w')
    /\ notices w' = [mkNotice 3 false 1000].
Proof.
  apply (PreConsume_notice (demo_world (demo_token 0 true) (fault_at 2))
           7 600 (demo_token 0 true) demo_user).
  - lia.
  - reflexivity.
  - reflexivity.
  - reflexivity.
  - reflexivity.
  - lia.
  - left. reflexivity.
  - simpl. lia.
  - unfold max_int, int_bits. simpl. lia.
Defined.
